(** * QuantumSim: a shallow embedding of the simulation core of QuantumSim.cpp

    The program is a single C++ translation unit.  Its state lives in the
    local variables of [main] and is mutated by a handful of lambdas (the
    button commands), by the event handlers of the main loop and by the
    per-frame time update.  The embedding below follows the source function
    by function:

    - [float] values are IEEE-754 binary32 numbers, modelled with the
      standard library's [spec_float] at precision 24 and maximal exponent
      128; every arithmetic operation is the correctly rounded one
      (round to nearest, ties to even), as a C++ compiler evaluating
      [float] expressions in single precision produces them;
    - [int] and [size_t] values are mathematical integers ([Z]); the only
      counter that grows without bound is [nextId], and the transition
      relation stops where its increment would overflow;
    - [std::vector] is [list], range-for loops are [map]s or structural
      recursions, [std::optional<float>] is [option float];
    - what the program reads from its environment (the simulation clock,
      [std::rand], the keyboard modifier, the window size, which button box
      contains the pointer) is an explicit argument of the operation that
      reads it. *)

From Stdlib Require Import ZArith List Bool Lia.
From Stdlib Require Import Sorting.Sorted.
From Stdlib Require Import Floats.SpecFloat.
Import ListNotations.
Open Scope Z_scope.

(** ** Single-precision arithmetic *)

Module F32.

Definition prec : Z := 24.
Definition emax : Z := 128.

Definition float : Type := spec_float.

Definition add : float -> float -> float := SFadd prec emax.
Definition sub : float -> float -> float := SFsub prec emax.
Definition mul : float -> float -> float := SFmul prec emax.
Definition div : float -> float -> float := SFdiv prec emax.
Definition sqrt : float -> float := SFsqrt prec emax.

(** [x < y], [x <= y], [x >= y]: all false as soon as one side is NaN. *)
Definition ltb (x y : float) : bool := SFltb x y.
Definition leb (x y : float) : bool := SFleb x y.
Definition geb (x y : float) : bool := SFleb y x.

(** Conversion of an integer, [(float)n]. *)
Definition of_Z (n : Z) : float := binary_normalize prec emax n 0 false.

(** A positive decimal literal [n/d] with suffix [f]: the binary32 number
    nearest to the quotient. *)
Definition lit (n d : positive) : float :=
  div (S754_finite false n 0) (S754_finite false d 0).

Definition is_nan (x : float) : bool :=
  match x with S754_nan => true | _ => false end.

(** [std::max(a, b)] and [std::min(a, b)]. *)
Definition max (a b : float) : float := if ltb a b then b else a.
Definition min (a b : float) : float := if ltb b a then b else a.

(** [std::clamp(v, lo, hi)] as libstdc++ implements it,
    [std::min(std::max(v, lo), hi)].  Its precondition is that [hi < lo] is
    false; the C++ standard defines the result only then. *)
Definition clamp (v lo hi : float) : float := min (max v lo) hi.

End F32.

Abbreviation float := F32.float.

(** ** Data model *)

Record Vector2f := mkVec { vx : float; vy : float }.

Definition vsub (p q : Vector2f) : Vector2f :=
  mkVec (F32.sub (vx p) (vx q)) (F32.sub (vy p) (vy q)).

Record Electron := mkElectron {
  radius : float;
  angle : float;
  speed : float
}.

Record Atom := mkAtom {
  id : Z;
  elementIndex : Z;
  pos : Vector2f;
  nucleusRadius : float;
  active : bool;
  selected : bool;
  electrons : list Electron;
  scheduledStart : option float
}.

Record Link := mkLink { aId : Z; bId : Z }.

(** The catalogue [ELEMENTS], reduced to the field the core reads. *)
Definition ELEMENTS_atomicNumber : list Z := [1; 2; 3; 4; 5; 6; 7; 8; 11; 17].

Definition SIDEBAR_W : float := F32.of_Z 320.

(** ** The pseudo-random generator

    [std::rand] is a global stream of non-negative integers; a stream is the
    sequence of results still to come. *)

Definition Rand : Type := nat -> Z.

Definition rand (g : Rand) : Z * Rand := (g O, fun n => g (S n)).

(** ** Electron distribution generator: [makeElectronsForElement] *)

Definition shellCap : list Z := [2; 8; 8; 18].
Definition radii : list float :=
  [F32.of_Z 30; F32.of_Z 50; F32.of_Z 70; F32.of_Z 90].

Definition size {A} (l : list A) : Z := Z.of_nat (length l).
Definition at_ {A} (d : A) (l : list A) (i : Z) : A := nth (Z.to_nat i) l d.

(** [(2.f * 3.1415926f * i) / std::max(1, inShell)] *)
Definition initial_angle (i inShell : Z) : float :=
  F32.div
    (F32.mul (F32.mul (F32.of_Z 2) (F32.lit 31415926 10000000)) (F32.of_Z i))
    (F32.of_Z (Z.max 1 inShell)).

(** [(s % 2 == 0 ? 0.8f : -0.5f) * (1.f - s*0.1f)] *)
Definition base_speed (s : Z) : float :=
  F32.mul
    (if Z.rem s 2 =? 0 then F32.lit 8 10 else SFopp (F32.lit 5 10))
    (F32.sub (F32.of_Z 1) (F32.mul (F32.of_Z s) (F32.lit 1 10))).

(** [((r % 100) / 100.f - 0.5f) * 0.2f] for a raw result [r] of [std::rand] *)
Definition jitter_of_draw (d : Z) : float :=
  F32.mul
    (F32.sub (F32.div (F32.of_Z d) (F32.of_Z 100)) (F32.lit 5 10))
    (F32.lit 2 10).

Definition jitter (r : Z) : float := jitter_of_draw (Z.rem r 100).

(** The inner loop [for (int i = 0; i < inShell; ++i)]: [todo] counts the
    iterations still to run, [e] is the vector built so far. *)
Fixpoint fill_shell (s inShell : Z) (todo : nat) (i : Z) (g : Rand)
    (e : list Electron) : list Electron * Rand :=
  match todo with
  | O => (e, g)
  | S todo' =>
      let a := initial_angle i inShell in
      let sp := base_speed s in
      let '(r, g') := rand g in
      let sp := F32.add sp (jitter r) in
      fill_shell s inShell todo' (i + 1) g'
        (e ++ [mkElectron (at_ S754_nan radii s) a sp])
  end.

(** The outer loop [for (size_t s = 0; s < shellCap.size() && remaining > 0; ++s)].
    Every iteration increments [s], so [size shellCap] iterations are enough. *)
Fixpoint shells_loop (fuel : nat) (s remaining : Z) (g : Rand)
    (e : list Electron) : list Electron * Rand :=
  match fuel with
  | O => (e, g)
  | S fuel' =>
      if (s <? size shellCap) && (0 <? remaining) then
        let inShell := Z.min remaining (at_ 0 shellCap s) in
        let '(e', g') := fill_shell s inShell (Z.to_nat inShell) 0 g e in
        shells_loop fuel' (s + 1) (remaining - inShell) g' e'
      else (e, g)
  end.

(** [seeded] is the stream that [std::srand((unsigned)std::time(nullptr))]
    installs; the second component is what is left of it afterwards. *)
Definition makeElectronsForElement_rng (atomicNumber : Z) (seeded : Rand)
    : list Electron * Rand :=
  let remaining := Z.min atomicNumber 24 in
  shells_loop (length shellCap) 0 remaining seeded [].

Definition makeElectronsForElement (atomicNumber : Z) (seeded : Rand)
    : list Electron :=
  fst (makeElectronsForElement_rng atomicNumber seeded).

(** ** Geometry helpers *)

Module Vec.

(** [length(v)]: [std::sqrt(v.x*v.x + v.y*v.y)] *)
Definition length (v : Vector2f) : float :=
  F32.sqrt (F32.add (F32.mul (vx v) (vx v)) (F32.mul (vy v) (vy v))).

(** [sf::FloatRect(left, top, width, height).contains(p)] for a rectangle
    of positive width and height: left and top edges included, right and
    bottom edges excluded. *)
Definition contains (left top width height : float) (p : Vector2f) : bool :=
  F32.geb (vx p) left && F32.ltb (vx p) (F32.add left width) &&
  F32.geb (vy p) top && F32.ltb (vy p) (F32.add top height).

End Vec.

(** [clampToCanvas(p, winSize)]; [winSize] is the [sf::Vector2u] that
    [window.getSize()] returns. *)
Definition clampToCanvas (p : Vector2f) (winSize : Z * Z) : Vector2f :=
  let x := F32.clamp (vx p) (F32.add SIDEBAR_W (F32.of_Z 20))
                     (F32.sub (F32.of_Z (fst winSize)) (F32.of_Z 20)) in
  let y := F32.clamp (vy p) (F32.of_Z 20)
                     (F32.sub (F32.of_Z (snd winSize)) (F32.of_Z 20)) in
  mkVec x y.

(** ** Program state: the locals of [main] that the lambdas capture, and
    the global state of [std::rand] *)

Record State := mkState {
  atoms : list Atom;
  links : list Link;
  nextId : Z;
  selectedElement : Z;
  dragging : bool;
  dragOffset : Vector2f;
  draggingId : Z;
  rng : Rand
}.

Definition INT_MAX : Z := 2147483647.

(** State at the first iteration of the main loop.  [g0] is the stream the
    C library starts with. *)
Definition init (g0 : Rand) : State :=
  mkState [] [] 1 0 false (mkVec (S754_zero false) (S754_zero false)) (-1) g0.

(** Field updates *)

Definition set_active (b : bool) (a : Atom) : Atom :=
  mkAtom (id a) (elementIndex a) (pos a) (nucleusRadius a) b (selected a)
         (electrons a) (scheduledStart a).

Definition set_selected (b : bool) (a : Atom) : Atom :=
  mkAtom (id a) (elementIndex a) (pos a) (nucleusRadius a) (active a) b
         (electrons a) (scheduledStart a).

Definition set_scheduledStart (o : option float) (a : Atom) : Atom :=
  mkAtom (id a) (elementIndex a) (pos a) (nucleusRadius a) (active a)
         (selected a) (electrons a) o.

Definition set_pos (p : Vector2f) (a : Atom) : Atom :=
  mkAtom (id a) (elementIndex a) p (nucleusRadius a) (active a) (selected a)
         (electrons a) (scheduledStart a).

Definition set_electrons (l : list Electron) (a : Atom) : Atom :=
  mkAtom (id a) (elementIndex a) (pos a) (nucleusRadius a) (active a)
         (selected a) l (scheduledStart a).

Definition set_atoms (l : list Atom) (st : State) : State :=
  mkState l (links st) (nextId st) (selectedElement st) (dragging st)
          (dragOffset st) (draggingId st) (rng st).

Definition set_links (l : list Link) (st : State) : State :=
  mkState (atoms st) l (nextId st) (selectedElement st) (dragging st)
          (dragOffset st) (draggingId st) (rng st).

Definition set_selectedElement (i : Z) (st : State) : State :=
  mkState (atoms st) (links st) (nextId st) i (dragging st)
          (dragOffset st) (draggingId st) (rng st).

Definition set_drag (d : bool) (off : Vector2f) (i : Z) (st : State) : State :=
  mkState (atoms st) (links st) (nextId st) (selectedElement st) d off i
          (rng st).

(** ** The commands (the lambdas of [main]) *)

(** [addAtom]: two draws from the current stream place the atom, then the
    generator reseeds.  [nextId] is an [int]: the increment [nextId++] has a
    defined result, [nextId + 1], only while [nextId < INT_MAX], which is
    what [defined] below requires of a click on "Add Atom"; every statement
    about the counter after [addAtom] carries that bound. *)
Definition addAtom (seeded : Rand) (st : State) : State :=
  let atomicNumber := at_ 0 ELEMENTS_atomicNumber (selectedElement st) in
  let '(r1, g1) := rand (rng st) in
  let '(r2, g2) := rand g1 in
  let p := mkVec
    (F32.add (F32.add SIDEBAR_W (F32.of_Z 100)) (F32.of_Z (Z.rem r1 600)))
    (F32.add (F32.of_Z 100) (F32.of_Z (Z.rem r2 500))) in
  let '(e, g3) := makeElectronsForElement_rng atomicNumber seeded in
  let a := mkAtom (nextId st) (selectedElement st) p (F32.of_Z 16) false false
                  e None in
  mkState (atoms st ++ [a]) (links st) (nextId st + 1) (selectedElement st)
          (dragging st) (dragOffset st) (draggingId st) g3.

Definition mem (i : Z) (l : list Z) : bool := existsb (Z.eqb i) l.

Definition selectedIds (l : list Atom) : list Z :=
  map id (filter selected l).

Definition removeSelected (st : State) : State :=
  let toRemoveIds := selectedIds (atoms st) in
  let atoms' := filter (fun a => negb (mem (id a) toRemoveIds)) (atoms st) in
  let links' :=
    filter (fun L => negb (mem (aId L) toRemoveIds || mem (bId L) toRemoveIds))
           (links st) in
  set_links links' (set_atoms atoms' st).

Definition toggleActiveSelected (st : State) : State :=
  set_atoms
    (map (fun a => if selected a then set_active (negb (active a)) a else a)
         (atoms st))
    st.

(** [t] is [simClock.getElapsedTime().asSeconds()] at the time of the call. *)
Definition scheduleSelected (t : float) (st : State) : State :=
  set_atoms
    (map (fun a =>
            if selected a
            then set_scheduledStart (Some (F32.add t (F32.of_Z 2))) a
            else a)
         (atoms st))
    st.

Definition clearAll (st : State) : State :=
  set_links [] (set_atoms [] st).

Definition linkPair (st : State) : State :=
  let sel := selectedIds (atoms st) in
  if size sel =? 2 then
    let a := at_ 0 sel 0 in
    let b := at_ 0 sel 1 in
    let '(a, b) := if b <? a then (b, a) else (a, b) in
    let exists_ :=
      existsb (fun L => (aId L =? a) && (bId L =? b)) (links st) in
    if negb exists_ then set_links (links st ++ [mkLink a b]) st else st
  else st.

Definition prevElement (st : State) : State :=
  set_selectedElement
    (Z.rem (selectedElement st - 1 + size ELEMENTS_atomicNumber)
           (size ELEMENTS_atomicNumber)) st.

Definition nextElement (st : State) : State :=
  set_selectedElement
    (Z.rem (selectedElement st + 1) (size ELEMENTS_atomicNumber)) st.

(** The buttons, in the order they are pushed to [buttons]. *)
Inductive ButtonId :=
| BtnPrevElement | BtnNextElement | BtnAddAtom | BtnToggleActive
| BtnSchedule | BtnLinkPair | BtnRemoveSelected | BtnClearAll.

Definition onClick (b : ButtonId) (now : float) (seeded : Rand)
    (st : State) : State :=
  match b with
  | BtnPrevElement => prevElement st
  | BtnNextElement => nextElement st
  | BtnAddAtom => addAtom seeded st
  | BtnToggleActive => toggleActiveSelected st
  | BtnSchedule => scheduleSelected now st
  | BtnLinkPair => linkPair st
  | BtnRemoveSelected => removeSelected st
  | BtnClearAll => clearAll st
  end.

(** ** Event handlers of the main loop *)

(** [MouseMoved]: the "dragging" part of the handler. *)
Fixpoint drag_first (d : Z) (p : Vector2f) (l : list Atom) : list Atom :=
  match l with
  | [] => []
  | a :: l' => if id a =? d then set_pos p a :: l' else a :: drag_first d p l'
  end.

Definition mouseMoved (x y : Z) (winSize : Z * Z) (st : State) : State :=
  let m := mkVec (F32.of_Z x) (F32.of_Z y) in
  if dragging st && negb (draggingId st =? -1) then
    set_atoms
      (drag_first (draggingId st)
                  (clampToCanvas (vsub m (dragOffset st)) winSize)
                  (atoms st))
      st
  else st.

(** [yList]: the layout cursor after the eight buttons and the label. *)
Definition yList : float :=
  F32.add
    (F32.add
       (F32.add
          (F32.add
             (F32.add
                (F32.add
                   (F32.add
                      (F32.add (F32.of_Z 20) (F32.of_Z 48))
                      (F32.of_Z 40))
                   (F32.of_Z 40))
                (F32.of_Z 40))
             (F32.of_Z 40))
          (F32.of_Z 40))
       (F32.of_Z 48))
    (F32.of_Z 24).

(** Atom-list click: index of the first row whose rectangle contains [m]. *)
Fixpoint list_row (m : Vector2f) (yy : float) (l : list Atom) (k : nat)
    : option nat :=
  match l with
  | [] => None
  | _ :: l' =>
      if Vec.contains (F32.of_Z 16) yy (F32.sub SIDEBAR_W (F32.of_Z 32))
                      (F32.of_Z 22) m
      then Some k
      else list_row m (F32.add yy (F32.of_Z 24)) l' (S k)
  end.

Fixpoint apply_at {A} (f : A -> A) (k : nat) (l : list A) : list A :=
  match l, k with
  | [], _ => []
  | a :: l', O => f a :: l'
  | a :: l', S k' => a :: apply_at f k' l'
  end.

Definition list_click (m : Vector2f) (ctrl : bool) (l : list Atom) : list Atom :=
  match list_row m yList l O with
  | None => l
  | Some k =>
      if ctrl then apply_at (fun a => set_selected (negb (selected a)) a) k l
      else apply_at (set_selected true) k (map (set_selected false) l)
  end.

(** The test of the canvas hit loop:
    [length(m - a.pos) <= a.nucleusRadius + 8.f]. *)
Definition within_reach (m : Vector2f) (a : Atom) : bool :=
  F32.leb (Vec.length (vsub m (pos a)))
          (F32.add (nucleusRadius a) (F32.of_Z 8)).

(** Canvas click: the last atom within reach wins. *)
Definition hit_test (m : Vector2f) (l : list Atom) : Z :=
  fold_left (fun hitId a => if within_reach m a then id a else hitId) l (-1).

Definition canvas_click (m : Vector2f) (ctrl : bool) (st : State) : State :=
  let hitId := hit_test m (atoms st) in
  if negb (hitId =? -1) then
    let atoms' :=
      if ctrl
      then map (fun a => if id a =? hitId
                         then set_selected (negb (selected a)) a else a)
               (atoms st)
      else map (fun a => set_selected (id a =? hitId) a) (atoms st) in
    let st' := set_atoms atoms' st in
    match find (fun a => id a =? hitId) atoms' with
    | Some a => set_drag true (vsub m (pos a)) hitId st'
    | None => st'
    end
  else set_atoms (map (set_selected false) (atoms st)) st.

(** [MouseButtonPressed] with the left button.  [over] is the first button
    whose box contains the pointer, [ctrl] whether a Control key is down. *)
Definition mousePressedLeft (x y : Z) (over : option ButtonId) (ctrl : bool)
    (now : float) (seeded : Rand) (st : State) : State :=
  let m := mkVec (F32.of_Z x) (F32.of_Z y) in
  match over with
  | Some b => onClick b now seeded st
  | None =>
      if F32.ltb (vx m) SIDEBAR_W
      then set_atoms (list_click m ctrl (atoms st)) st
      else canvas_click m ctrl st
  end.

Definition mouseReleasedLeft (st : State) : State :=
  set_drag false (dragOffset st) (-1) st.

(** ** Per-frame time update *)

Definition advance (e : Electron) : Electron :=
  mkElectron (radius e)
             (F32.add (angle e)
                      (F32.mul (speed e) (F32.div (F32.of_Z 1) (F32.of_Z 60))))
             (speed e).

(** First [if] of the loop body: a due schedule fires. *)
Definition fires (t : float) (a : Atom) : bool :=
  match scheduledStart a with
  | Some s => F32.geb t s
  | None => false
  end.

Definition activate_due (t : float) (a : Atom) : Atom :=
  if fires t a then set_scheduledStart None (set_active true a) else a.

(** Second [if] of the loop body: the electrons of an active atom advance. *)
Definition integrate (a : Atom) : Atom :=
  if active a then set_electrons (map advance (electrons a)) a else a.

Definition update_atom (t : float) (a : Atom) : Atom :=
  integrate (activate_due t a).

Definition frame (t : float) (st : State) : State :=
  set_atoms (map (update_atom t) (atoms st)) st.

(** ** Runs of the main loop

    One input is one event taken from the queue or one time update.  The
    events that change none of the variables below are left out: [Closed]
    ends the loop, and the hover flag that [MouseMoved] recomputes belongs
    to the buttons. *)

Inductive Input :=
| MouseMoved (x y : Z) (winSize : Z * Z)
| MouseButtonPressedLeft (x y : Z) (over : option ButtonId) (ctrl : bool)
    (now : float) (seeded : Rand)
| MouseButtonReleasedLeft
| Frame (t : float).

Definition step (i : Input) (st : State) : State :=
  match i with
  | MouseMoved x y w => mouseMoved x y w st
  | MouseButtonPressedLeft x y over ctrl now seeded =>
      mousePressedLeft x y over ctrl now seeded st
  | MouseButtonReleasedLeft => mouseReleasedLeft st
  | Frame t => frame t st
  end.

(** [nextId++] is defined only below [INT_MAX]. *)
Definition defined (i : Input) (st : State) : Prop :=
  match i with
  | MouseButtonPressedLeft _ _ (Some BtnAddAtom) _ _ _ => nextId st < INT_MAX
  | _ => True
  end.

Definition run (inputs : list Input) (st : State) : State :=
  fold_left (fun s i => step i s) inputs st.

Inductive reachable (g0 : Rand) : State -> Prop :=
| reach_init : reachable g0 (init g0)
| reach_step st i :
    reachable g0 st -> defined i st -> reachable g0 (step i st).

(** ** Vocabulary of the properties *)







(** Successive frame updates of one atom, and the number of them in which
    its schedule fires. *)
Definition updates (ts : list float) (a : Atom) : Atom :=
  fold_left (fun a t => update_atom t a) ts a.







(** Links *)

Definition same_link (a b : Z) (L : Link) : bool :=
  (aId L =? a) && (bId L =? b).

Definition count_link (a b : Z) (l : list Link) : nat :=
  length (filter (same_link a b) l).

(** Links joining [a] and [b], in either order. *)
Definition count_pair (a b : Z) (l : list Link) : nat :=
  length (filter (fun L => same_link a b L || same_link b a L) l).

Definition live (i : Z) (st : State) : Prop :=
  exists a, In a (atoms st) /\ id a = i.

Definition no_dangling (st : State) : Prop :=
  forall L, In L (links st) -> live (aId L) st /\ live (bId L) st.

Definition ids_ok (st : State) : Prop :=
  1 <= nextId st /\
  (forall i, In i (map id (atoms st)) -> 1 <= i < nextId st) /\
  NoDup (map id (atoms st)).

Definition links_ok (st : State) : Prop :=
  (forall L, In L (links st) -> aId L <= bId L) /\
  (forall a b, (count_link a b (links st) <= 1)%nat).

(** A run is defined when each of its inputs is. *)
Fixpoint all_defined (inputs : list Input) (st : State) : Prop :=
  match inputs with
  | [] => True
  | i :: rest => defined i st /\ all_defined rest (step i st)
  end.

(** ** Sample runs

    Button boxes span x in 16..316; "Add Atom" is at y in 68..100,
    "Toggle Active" at 108..140, "Schedule +2s" at 148..180, "Link Pair" at
    188..220, "Remove Selected" at 228..260; the rows of the atom list start
    at y = 340 and are 24 apart. *)

Definition test_rand : Rand := fun n => 1103515245 * Z.of_nat n + 12345.

Definition click_button (b : ButtonId) (y : Z) (now : float) : Input :=
  MouseButtonPressedLeft 100 y (Some b) false now test_rand.

Definition click_row (k : Z) (ctrl : bool) (now : float) : Input :=
  MouseButtonPressedLeft 20 (345 + 24 * k) None ctrl now test_rand.

(** One hydrogen atom, selected. *)
Definition one_selected : list Input :=
  [ click_button BtnAddAtom 84 (F32.of_Z 1);
    click_row 0 false (F32.of_Z 2) ].

(** Two hydrogen atoms, both selected. *)
Definition two_selected : list Input :=
  [ click_button BtnAddAtom 84 (F32.of_Z 1);
    click_button BtnAddAtom 84 (F32.of_Z 2);
    click_row 0 false (F32.of_Z 3);
    click_row 1 true (F32.of_Z 4) ].


(** Two linked atoms, the first one selected. *)
Definition linked_one_selected : list Input :=
  two_selected
  ++ [ click_button BtnLinkPair 204 (F32.of_Z 5);
       click_row 0 false (F32.of_Z 6) ].

(** One atom, selected and scheduled at time 5. *)
Definition scheduled_at_5 : list Input :=
  one_selected ++ [ click_button BtnSchedule 164 (F32.of_Z 5) ].

Definition dummy_atom : Atom :=
  mkAtom 0 0 (mkVec S754_nan S754_nan) S754_nan false false [] None.

(** The scenario of the specification for dragging: atom A at (400, 300),
    pressed at (405, 305), in the initial 1200 x 800 window. *)
Definition atom_at_400_300 : Atom :=
  mkAtom 1 0 (mkVec (F32.of_Z 400) (F32.of_Z 300)) (F32.of_Z 16) false false
         (makeElectronsForElement 1 test_rand) None.

Definition drag_scenario_start : State :=
  mkState [atom_at_400_300] [] 2 0 false
          (mkVec (S754_zero false) (S754_zero false)) (-1) test_rand.

Definition press_on_A (ctrl : bool) : Input :=
  MouseButtonPressedLeft 405 305 None ctrl (F32.of_Z 1) test_rand.

(** ** What the specification says about the generator

    Shell occupancies in the specification's words: the shells are filled in
    order until the capped count is exhausted, each taking
    [min(remaining, capacity)] (nothing once the count is used up). *)

Fixpoint occupancy (caps : list Z) (remaining : Z) : list Z :=
  match caps with
  | [] => []
  | c :: caps' =>
      let n := Z.max 0 (Z.min remaining c) in
      n :: occupancy caps' (remaining - n)
  end.

(** The [n] electrons of shell [s], when [off] draws were made before. *)
Definition shell_electrons (s n : Z) (off : nat) (g : Rand) : list Electron :=
  map (fun j =>
         mkElectron (at_ S754_nan radii s)
                    (initial_angle (Z.of_nat j) n)
                    (F32.add (base_speed s) (jitter (g (off + j)%nat))))
      (seq 0 (Z.to_nat n)).

Fixpoint spec_shells (s : Z) (occ : list Z) (off : nat) (g : Rand)
    : list Electron :=
  match occ with
  | [] => []
  | n :: occ' =>
      shell_electrons s n off g
      ++ spec_shells (s + 1) occ' (off + Z.to_nat n) g
  end.

Definition jitter_in_range (d : Z) : bool :=
  F32.leb (SFopp (F32.lit 1 10)) (jitter_of_draw d) &&
  F32.leb (jitter_of_draw d) (F32.lit 1 10).

(** ** Drawing of the links

    The part of the draw phase that reads the entity state: for a link, the
    loop over the atoms keeps the last atom carrying each endpoint
    identifier, and the line is drawn when both were found. *)

Definition link_endpoints (L : Link) (l : list Atom)
    : option Atom * option Atom :=
  fold_left
    (fun AB a =>
       (if id a =? aId L then Some a else fst AB,
        if id a =? bId L then Some a else snd AB))
    l (None, None).

Definition drawn_link (L : Link) (l : list Atom)
    : option (Vector2f * Vector2f) :=
  match link_endpoints L l with
  | (Some A, Some B) => Some (pos A, pos B)
  | _ => None
  end.

(** ** Vocabulary of the further properties *)

(** Identifiers in store order grow strictly. *)
Definition increasing (l : list Z) : Prop := StronglySorted Z.lt l.

(** Structural equality of single-precision values. *)
Definition same_float (x y : float) : bool :=
  match x, y with
  | S754_zero a, S754_zero b => Bool.eqb a b
  | S754_infinity a, S754_infinity b => Bool.eqb a b
  | S754_nan, S754_nan => true
  | S754_finite a m e, S754_finite b m' e' =>
      Bool.eqb a b && Pos.eqb m m' && Z.eqb e e'
  | _, _ => false
  end.

(** What a frame update must not change in the electrons of an atom. *)
Definition orbit_fields (a : Atom) : Z * list float * list float :=
  (id a, map radius (electrons a), map speed (electrons a)).

(** What only commands and the pointer change. *)
Definition frame_kept_fields (a : Atom)
    : Z * Z * Vector2f * float * bool :=
  (id a, elementIndex a, pos a, nucleusRadius a, selected a).

Definition is_add_click (i : Input) : bool :=
  match i with
  | MouseButtonPressedLeft _ _ (Some BtnAddAtom) _ _ _ => true
  | _ => false
  end.

(** [2.f * 3.1415926f] *)
Definition two_pi : float := F32.mul (F32.of_Z 2) (F32.lit 31415926 10000000).

(** Checks run over the finitely many cases of the generator. *)
Definition speed_of (s d : Z) : float :=
  F32.add (base_speed s) (jitter_of_draw d).

Definition speed_direction_ok (s d : Z) : bool :=
  (if Z.even s then F32.ltb (S754_zero false) (speed_of s d)
   else F32.ltb (speed_of s d) (S754_zero false))
  && F32.leb (F32.lit 1 4) (SFabs (speed_of s d))
  && F32.leb (SFabs (speed_of s d)) (F32.lit 9 10).

Definition angle_in_turn (n i : Z) : bool :=
  F32.leb (S754_zero false) (initial_angle i n)
  && F32.ltb (initial_angle i n) two_pi.

Definition angles_of_shell (n : Z) : list float :=
  map (fun i => initial_angle (Z.of_nat i) n) (seq 0 (Z.to_nat n)).

Fixpoint strictly_rising (l : list float) : bool :=
  match l with
  | x :: ((y :: _) as l') => F32.ltb x y && strictly_rising l'
  | _ => true
  end.

(** Where [addAtom] puts a new atom, for the draws [r1] and [r2]. *)
Definition spawn_x (r1 : Z) : float :=
  F32.add (F32.add SIDEBAR_W (F32.of_Z 100)) (F32.of_Z (Z.rem r1 600)).

Definition spawn_y (r2 : Z) : float :=
  F32.add (F32.of_Z 100) (F32.of_Z (Z.rem r2 500)).

(** The checks behind the spawn area: the coordinate is the exact sum, and
    clamping it in the initial 1200 x 800 window leaves it alone. *)
Definition spawn_x_ok (d : Z) : bool :=
  same_float (spawn_x d) (F32.of_Z (420 + d))
  && same_float
       (vx (clampToCanvas (mkVec (spawn_x d) (F32.of_Z 100)) (1200, 800)))
       (spawn_x d).

Definition spawn_y_ok (d : Z) : bool :=
  same_float (spawn_y d) (F32.of_Z (100 + d))
  && same_float
       (vy (clampToCanvas (mkVec (F32.of_Z 420) (spawn_y d)) (1200, 800)))
       (spawn_y d).

(** The checks on the angles of a shell of [n] electrons: they rise
    strictly, start at zero and stay below a full turn. *)
Definition shell_angles_ok (n : Z) : bool :=
  strictly_rising (angles_of_shell n)
  && forallb (fun a => F32.leb (S754_zero false) a && F32.ltb a two_pi)
             (angles_of_shell n)
  && match angles_of_shell n with
     | [] => true
     | a :: _ => same_float a (S754_zero false)
     end.

(** What [addAtom] fixes once and for all, and what it guarantees: an
    element of the catalogue, the nucleus radius 16, and one electron per
    unit of atomic number. *)
Definition build_fields (a : Atom) : Z * float * nat :=
  (elementIndex a, nucleusRadius a, length (electrons a)).

Definition well_built (a : Atom) : Prop :=
  0 <= elementIndex a < size ELEMENTS_atomicNumber
  /\ nucleusRadius a = F32.of_Z 16
  /\ size (electrons a) = at_ 0 ELEMENTS_atomicNumber (elementIndex a).

(** The electrons of an atom after [n] integration steps. *)
Definition advance_n (n : nat) (e : Electron) : Electron :=
  Nat.iter n advance e.

(** * Properties *)

(** ** The generator *)

Section Generator.

Lemma fill_shell_shape s n todo :
  forall i g h e off,
    (forall k, g k = h (off + k)%nat) ->
    fst (fill_shell s n todo (Z.of_nat i) g e)
    = e ++ map (fun j =>
                  mkElectron (at_ S754_nan radii s)
                             (initial_angle (Z.of_nat (i + j)) n)
                             (F32.add (base_speed s)
                                      (jitter (h (off + j)%nat))))
               (seq 0 todo)
    /\ forall k, snd (fill_shell s n todo (Z.of_nat i) g e) k
                 = h (off + todo + k)%nat.
Proof.
  induction todo as [|todo IH]; intros i g h e off Hg; simpl.
  - rewrite app_nil_r, Nat.add_0_r. auto.
  - replace (Z.of_nat i + 1) with (Z.of_nat (S i)) by lia.
    destruct (IH (S i) (fun k => g (S k)) h
                 (e ++ [mkElectron (at_ S754_nan radii s)
                                   (initial_angle (Z.of_nat i) n)
                                   (F32.add (base_speed s) (jitter (g O)))])
                 (S off)) as [Hfst Hsnd].
    { intros k. rewrite Hg. f_equal. lia. }
    split.
    + rewrite Hfst, <- app_assoc. f_equal. simpl. f_equal.
      * rewrite Hg, !Nat.add_0_r. reflexivity.
      * rewrite <- seq_shift, map_map. apply map_ext. intros j.
        do 3 f_equal; try lia. f_equal. lia.
    + intros k. rewrite Hsnd. f_equal. lia.
Qed.

Lemma spec_shells_exhausted caps :
  forall s rem off g, rem <= 0 -> spec_shells s (occupancy caps rem) off g = [].
Proof.
  induction caps as [|c caps IH]; intros s rem off g Hrem; simpl; auto.
  replace (Z.max 0 (Z.min rem c)) with 0 by lia.
  rewrite IH by lia. reflexivity.
Qed.

Lemma shells_loop_shape fuel :
  forall s rem g h e off,
    0 <= s -> 4 <= s + Z.of_nat fuel ->
    (forall k, g k = h (off + k)%nat) ->
    fst (shells_loop fuel s rem g e)
    = e ++ spec_shells s (occupancy (skipn (Z.to_nat s) shellCap) rem) off h.
Proof.
  induction fuel as [|fuel IH]; intros s rem g h e off Hs Hfuel Hg.
  - simpl. rewrite skipn_all2 by (simpl; lia). simpl.
    now rewrite app_nil_r.
  - cbn [shells_loop].
    destruct (s <? size shellCap) eqn:Hlt; cbn [andb].
    2:{ apply Z.ltb_ge in Hlt. rewrite skipn_all2.
        - simpl. now rewrite app_nil_r.
        - unfold size in Hlt. lia. }
    destruct (0 <? rem) eqn:Hrem.
    2:{ apply Z.ltb_ge in Hrem. rewrite spec_shells_exhausted by assumption.
        simpl. now rewrite app_nil_r. }
    apply Z.ltb_lt in Hlt, Hrem. unfold size in Hlt. simpl in Hlt.
    set (n := Z.min rem (at_ 0 shellCap s)).
    destruct (fill_shell_shape s n (Z.to_nat n) O g h e off Hg)
      as [Hfst Hsnd].
    change (Z.of_nat 0) with 0 in Hfst, Hsnd.
    destruct (fill_shell s n (Z.to_nat n) 0 g e) as [e' g'] eqn:Hfill.
    simpl in Hfst, Hsnd.
    rewrite (IH (s + 1) (rem - n) g' h e' (off + Z.to_nat n)%nat)
      by (auto; lia).
    rewrite Hfst, <- app_assoc. f_equal.
    assert (Hsk : skipn (Z.to_nat s) shellCap
                  = at_ 0 shellCap s :: skipn (Z.to_nat (s + 1)) shellCap).
    { assert (Hcases : s = 0 \/ s = 1 \/ s = 2 \/ s = 3) by lia.
      destruct Hcases as [->|[->|[->| ->]]]; reflexivity. }
    assert (Hpos : 0 < at_ 0 shellCap s).
    { assert (Hcases : s = 0 \/ s = 1 \/ s = 2 \/ s = 3) by lia.
      destruct Hcases as [->|[->|[->| ->]]]; reflexivity. }
    rewrite Hsk. cbn [occupancy spec_shells].
    replace (Z.max 0 (Z.min rem (at_ 0 shellCap s))) with n by (unfold n; lia).
    reflexivity.
Qed.

(** The generator produces exactly the shells of the specification. *)
Lemma makeElectronsForElement_shape z g :
  makeElectronsForElement z g
  = spec_shells 0 (occupancy shellCap (Z.min z 24)) 0 g.
Proof.
  unfold makeElectronsForElement, makeElectronsForElement_rng.
  rewrite (shells_loop_shape (length shellCap) 0 (Z.min z 24) g g [] O).
  - reflexivity.
  - lia.
  - simpl. lia.
  - reflexivity.
Qed.

Lemma shell_electrons_length s n off g :
  length (shell_electrons s n off g) = Z.to_nat n.
Proof. unfold shell_electrons. now rewrite length_map, length_seq. Qed.

Lemma spec_shells_length occ :
  forall s off g,
    length (spec_shells s occ off g) = fold_right (fun n acc => (Z.to_nat n + acc)%nat) O occ.
Proof.
  induction occ as [|n occ IH]; intros s off g; simpl; auto.
  now rewrite length_app, shell_electrons_length, IH.
Qed.

Lemma jitter_all_draws :
  forallb jitter_in_range (map Z.of_nat (seq 0 100)) = true.
Proof. vm_compute. reflexivity. Qed.

Lemma jitter_in_range_draw d : 0 <= d <= 99 -> jitter_in_range d = true.
Proof.
  intros Hd.
  pose proof jitter_all_draws as H.
  rewrite forallb_forall in H. apply H.
  apply in_map_iff. exists (Z.to_nat d). split; [lia|].
  apply in_seq. lia.
Qed.

Lemma rem_100_range r : 0 <= r -> 0 <= Z.rem r 100 <= 99.
Proof. intros Hr. pose proof (Z.rem_bound_pos r 100). lia. Qed.

Lemma shell_electrons_radii s n off g :
  map radius (shell_electrons s n off g)
  = repeat (at_ S754_nan radii s) (Z.to_nat n).
Proof.
  unfold shell_electrons. rewrite map_map. cbn [radius].
  transitivity (repeat (at_ S754_nan radii s)
                       (length (seq 0 (Z.to_nat n)))).
  - induction (seq 0 (Z.to_nat n)) as [|j l IH];
      cbn [map repeat length]; [reflexivity|now rewrite IH].
  - now rewrite length_seq.
Qed.

Lemma shell_electrons_nth s n off g j d :
  (j < Z.to_nat n)%nat ->
  radius (nth j (shell_electrons s n off g) d) = at_ S754_nan radii s /\
  speed (nth j (shell_electrons s n off g) d)
  = F32.add (base_speed s) (jitter (g (off + j)%nat)).
Proof.
  intros Hj. unfold shell_electrons.
  rewrite (nth_indep _ d (mkElectron (at_ S754_nan radii s)
                                     (initial_angle (Z.of_nat O) n)
                                     (F32.add (base_speed s)
                                              (jitter (g (off + 0)%nat)))))
    by (now rewrite length_map, length_seq).
  rewrite (map_nth (fun j => mkElectron (at_ S754_nan radii s)
                                        (initial_angle (Z.of_nat j) n)
                                        (F32.add (base_speed s)
                                                 (jitter (g (off + j)%nat))))).
  rewrite seq_nth by assumption.
  split; reflexivity.
Qed.

(** The electron at position [off' + j] of the sequence took draw number
    [off + j]. *)
Lemma spec_shells_nth occ :
  forall s off g j d,
    (j < length (spec_shells s occ off g))%nat ->
    exists s',
      s <= s' < s + size occ /\
      radius (nth j (spec_shells s occ off g) d) = at_ S754_nan radii s' /\
      speed (nth j (spec_shells s occ off g) d)
      = F32.add (base_speed s') (jitter (g (off + j)%nat)).
Proof.
  unfold size.
  induction occ as [|n occ IH]; intros s off g j d Hj; simpl in Hj.
  - lia.
  - cbn [spec_shells length].
    rewrite length_app, shell_electrons_length in Hj.
    destruct (Nat.lt_ge_cases j (Z.to_nat n)) as [Hlt|Hge].
    + rewrite app_nth1 by (now rewrite shell_electrons_length).
      destruct (shell_electrons_nth s n off g j d Hlt) as [Hr Hsp].
      exists s. repeat split; auto; lia.
    + rewrite app_nth2 by (now rewrite shell_electrons_length).
      rewrite shell_electrons_length.
      destruct (IH (s + 1) (off + Z.to_nat n)%nat g (j - Z.to_nat n)%nat d)
        as [s' [Hs' [Hr Hsp]]]; [lia|].
      exists s'. repeat split; auto; try lia.
      rewrite Hsp. do 3 f_equal. lia.
Qed.

Lemma occupancy_length caps : forall r, length (occupancy caps r) = length caps.
Proof. induction caps; intros r; simpl; auto. Qed.

Lemma occupancy_step r r' c :
  0 <= c -> r' = Z.max 0 r ->
  Z.max 0 (Z.min r c) = Z.min r' c /\
  r' - Z.min r' c = Z.max 0 (r - Z.max 0 (Z.min r c)).
Proof. intros Hc ->. lia. Qed.

End Generator.

(** C2.  The electron sequence generated for atomic number [z] has [z]
    elements when [1 <= z <= 24], 24 when [z > 24] and none when [z <= 0].
    The capacities are 2, 8, 8, 18 and the radii 30, 50, 70, 90; the shells
    are filled in that order, shell [s] receiving [min(remaining, capacity)]
    electrons, all at the radius of shell [s]; there is no fifth shell. *)
Theorem makeElectronsForElement_count_and_shells (z : Z) (g : Rand) :
  size (makeElectronsForElement z g)
  = (if z <=? 0 then 0 else if z <=? 24 then z else 24)
  /\ shellCap = [2; 8; 8; 18]
  /\ radii = [F32.of_Z 30; F32.of_Z 50; F32.of_Z 70; F32.of_Z 90]
  /\ (let r := Z.max 0 (Z.min z 24) in
      let n0 := Z.min r 2 in
      let n1 := Z.min (r - n0) 8 in
      let n2 := Z.min (r - n0 - n1) 8 in
      let n3 := Z.min (r - n0 - n1 - n2) 18 in
      map radius (makeElectronsForElement z g)
      = repeat (F32.of_Z 30) (Z.to_nat n0) ++ repeat (F32.of_Z 50) (Z.to_nat n1)
        ++ repeat (F32.of_Z 70) (Z.to_nat n2)
        ++ repeat (F32.of_Z 90) (Z.to_nat n3)).
Proof.
  rewrite makeElectronsForElement_shape.
  split; [|split; [reflexivity|split; [reflexivity|]]].
  - unfold size. rewrite spec_shells_length.
    cbn [shellCap occupancy fold_right].
    destruct (z <=? 0) eqn:H0; [|destruct (z <=? 24) eqn:H24];
      rewrite ?Z.leb_le, ?Z.leb_gt in *; lia.
  - cbn zeta. cbn [shellCap occupancy spec_shells].
    rewrite !map_app, !shell_electrons_radii, app_nil_r. cbn [map].
    change (at_ S754_nan radii 0) with (F32.of_Z 30).
    change (at_ S754_nan radii (0 + 1)) with (F32.of_Z 50).
    change (at_ S754_nan radii (0 + 1 + 1)) with (F32.of_Z 70).
    change (at_ S754_nan radii (0 + 1 + 1 + 1)) with (F32.of_Z 90).
    set (r := Z.min z 24). set (r' := Z.max 0 r).
    destruct (occupancy_step r r' 2 ltac:(lia) eq_refl) as [E0 R1].
    rewrite E0.
    destruct (occupancy_step _ _ 8 ltac:(lia) R1) as [E1 R2].
    rewrite E0 in E1, R2. rewrite E1.
    destruct (occupancy_step _ _ 8 ltac:(lia) R2) as [E2 R3].
    rewrite E1 in E2, R3. rewrite E2.
    destruct (occupancy_step _ _ 18 ltac:(lia) R3) as [E3 _].
    rewrite E2 in E3. rewrite E3.
    reflexivity.
Qed.

(** C9.  The electron at position [j] of the generated sequence, in shell
    [s], has speed [base * (1 - s * 0.1) + jitter], with [base] equal to 0.8
    in an even shell and -0.5 in an odd one, where the jitter comes from
    draw number [j] of [rand() % 100]; and whatever the draw in 0..99, the
    jitter lies between -0.1 and 0.1 (the single-precision constants, as
    everywhere in the expression). *)
Theorem electron_speed_formula (z : Z) (g : Rand) (j : nat) (d : Electron) :
  (forall k, 0 <= g k) ->
  (j < length (makeElectronsForElement z g))%nat ->
  let e := nth j (makeElectronsForElement z g) d in
  (forall r, 0 <= r <= 99 ->
     F32.leb (SFopp (F32.lit 1 10)) (jitter_of_draw r) = true /\
     F32.leb (jitter_of_draw r) (F32.lit 1 10) = true)
  /\ exists s,
       0 <= s < 4 /\
       radius e = at_ S754_nan radii s /\
       0 <= Z.rem (g j) 100 <= 99 /\
       speed e
       = F32.add
           (F32.mul (if Z.even s then F32.lit 8 10 else SFopp (F32.lit 5 10))
                    (F32.sub (F32.of_Z 1) (F32.mul (F32.of_Z s) (F32.lit 1 10))))
           (jitter_of_draw (Z.rem (g j) 100)).
Proof.
  intros Hg Hj e. split.
  - intros r Hr. apply jitter_in_range_draw in Hr.
    unfold jitter_in_range in Hr. now apply andb_true_iff in Hr.
  - subst e. rewrite makeElectronsForElement_shape in *.
    destruct (spec_shells_nth _ _ _ _ _ d Hj) as [s [Hs [Hr Hk]]].
    unfold size in Hs. rewrite occupancy_length in Hs. simpl in Hs.
    exists s. repeat split; try lia; auto.
    + apply rem_100_range, Hg.
    + apply rem_100_range, Hg.
    + rewrite Hk. unfold base_speed, jitter.
      assert (Hcases : s = 0 \/ s = 1 \/ s = 2 \/ s = 3) by lia.
      destruct Hcases as [->|[->|[->| ->]]]; reflexivity.
Qed.

(** Lithium: the third electron is the first of shell 1, at radius 50, with
    speed -0.5 * 0.9 plus the jitter of the third draw. *)
Lemma electron_speed_formula_witness :
  let e := nth 2 (makeElectronsForElement 3 test_rand)
               (mkElectron S754_nan S754_nan S754_nan) in
  radius e = F32.of_Z 50 /\
  exists s,
    0 <= s < 4 /\
    radius e = at_ S754_nan radii s /\
    0 <= Z.rem (test_rand 2%nat) 100 <= 99 /\
    speed e
    = F32.add
        (F32.mul (if Z.even s then F32.lit 8 10 else SFopp (F32.lit 5 10))
                 (F32.sub (F32.of_Z 1) (F32.mul (F32.of_Z s) (F32.lit 1 10))))
        (jitter_of_draw (Z.rem (test_rand 2%nat) 100)).
Proof.
  cbv zeta. split; [vm_compute; reflexivity|].
  assert (Hg : forall k, 0 <= test_rand k) by (intros k; unfold test_rand; lia).
  assert (Hj : (2 < length (makeElectronsForElement 3 test_rand))%nat)
    by (vm_compute; lia).
  exact (proj2 (electron_speed_formula 3 test_rand 2
                  (mkElectron S754_nan S754_nan S754_nan) Hg Hj)).
Defined.

(** The literals are the usual bit patterns: 0.1f is 0x3DCCCCCD, 0.8f is
    0x3F4CCCCD and 3.1415926f is 0x40490FDA. *)
Example lit_bit_patterns :
  F32.lit 1 10 = S754_finite false 13421773 (-27) /\
  F32.lit 8 10 = S754_finite false 13421773 (-24) /\
  F32.lit 31415926 10000000 = S754_finite false 13176794 (-22).
Proof. vm_compute. repeat split. Qed.

(** ** Comparison of single-precision numbers *)

Section Comparison.

Lemma SFcompare_antisym x y c :
  SFcompare x y = Some c -> SFcompare y x = Some (CompOpp c).
Proof.
  destruct x as [sx|sx| |sx mx ex], y as [sy|sy| |sy my ey]; simpl;
    try discriminate;
    try (intros [= <-]; reflexivity);
    try (destruct sx; intros [= <-]; reflexivity);
    try (destruct sy; intros [= <-]; reflexivity);
    try (destruct sx, sy; intros [= <-]; reflexivity).
  intros [= <-]. f_equal.
  change (PosDef.Pos.compare_cont Eq my mx) with (Pos.compare my mx).
  change (PosDef.Pos.compare_cont Eq mx my) with (Pos.compare mx my).
  rewrite (Z.compare_antisym ex ey), (Pos.compare_antisym mx my).
  destruct sx, sy, (ex ?= ey)%Z, (mx ?= my)%positive; reflexivity.
Qed.

Lemma SFcompare_defined x y :
  F32.is_nan x = false -> F32.is_nan y = false ->
  exists c, SFcompare x y = Some c.
Proof.
  destruct x, y; simpl; try discriminate; eauto.
Qed.

Lemma SFcompare_refl x : F32.is_nan x = false -> SFcompare x x = Some Eq.
Proof.
  destruct x as [s|s| |s m e]; simpl; try discriminate; intros _;
    try (destruct s; reflexivity).
  change (PosDef.Pos.compare_cont Eq m m) with (Pos.compare m m).
  rewrite Z.compare_refl, Pos.compare_refl. destruct s; reflexivity.
Qed.

Lemma leb_not_nan x y :
  F32.leb x y = true -> F32.is_nan x = false /\ F32.is_nan y = false.
Proof.
  unfold F32.leb, SFleb. destruct x, y; simpl; try discriminate; auto.
Qed.


Lemma leb_refl x : F32.is_nan x = false -> F32.leb x x = true.
Proof.
  intros H. unfold F32.leb, SFleb. now rewrite SFcompare_refl.
Qed.

Lemma not_ltb_leb x y :
  F32.is_nan x = false -> F32.is_nan y = false ->
  F32.ltb x y = false -> F32.leb y x = true.
Proof.
  intros Hx Hy. unfold F32.ltb, F32.leb, SFltb, SFleb.
  destruct (SFcompare_defined x y Hx Hy) as [c E]. rewrite E.
  rewrite (SFcompare_antisym _ _ _ E). destruct c; simpl; congruence.
Qed.

Lemma ltb_irrefl x : F32.ltb x x = false.
Proof.
  unfold F32.ltb, SFltb.
  destruct (F32.is_nan x) eqn:E.
  - destruct x; try discriminate. reflexivity.
  - now rewrite SFcompare_refl.
Qed.

Lemma leb_ltb_false lo hi : F32.leb lo hi = true -> F32.ltb hi lo = false.
Proof.
  unfold F32.leb, F32.ltb, SFleb, SFltb.
  destruct (SFcompare lo hi) as [c|] eqn:E; [|discriminate].
  rewrite (SFcompare_antisym _ _ _ E). destruct c; simpl; congruence.
Qed.

(** Within the precondition of [std::clamp] the result is the one the
    standard describes: [lo] if [v < lo], [hi] if [hi < v], [v] otherwise. *)
Lemma clamp_in_order v lo hi :
  F32.leb lo hi = true ->
  F32.clamp v lo hi = if F32.ltb v lo then lo else if F32.ltb hi v then hi else v.
Proof.
  intros Hle. unfold F32.clamp, F32.max, F32.min.
  destruct (F32.ltb v lo); [|reflexivity].
  now rewrite (leb_ltb_false _ _ Hle).
Qed.

(** Within its precondition [lo <= hi], [std::clamp] returns a value of
    the interval, provided the clamped value is a number. *)
Lemma clamp_bounds v lo hi :
  F32.is_nan v = false -> F32.leb lo hi = true ->
  F32.leb lo (F32.clamp v lo hi) = true /\
  F32.leb (F32.clamp v lo hi) hi = true.
Proof.
  intros Hv Hlh. destruct (leb_not_nan _ _ Hlh) as [Hlo Hhi].
  rewrite clamp_in_order by assumption.
  destruct (F32.ltb v lo) eqn:E1.
  - split; [now apply leb_refl | assumption].
  - destruct (F32.ltb hi v) eqn:E2.
    + split; [assumption | now apply leb_refl].
    + split; now apply not_ltb_leb.
Qed.

End Comparison.

(** ** What the handlers leave alone *)

Section Frames.

Lemma atoms_addAtom seeded st :
  atoms (addAtom seeded st)
  = atoms st
    ++ [mkAtom (nextId st) (selectedElement st)
          (mkVec
             (F32.add (F32.add SIDEBAR_W (F32.of_Z 100))
                      (F32.of_Z (Z.rem (rng st O) 600)))
             (F32.add (F32.of_Z 100) (F32.of_Z (Z.rem (rng st 1%nat) 500))))
          (F32.of_Z 16) false false
          (makeElectronsForElement
             (at_ 0 ELEMENTS_atomicNumber (selectedElement st)) seeded)
          None].
Proof.
  unfold addAtom, makeElectronsForElement. cbn [rand].
  destruct (makeElectronsForElement_rng _ seeded) as [e g3]. reflexivity.
Qed.

Lemma links_addAtom seeded st : links (addAtom seeded st) = links st.
Proof.
  unfold addAtom. cbn [rand].
  destruct (makeElectronsForElement_rng _ seeded) as [e g3]. reflexivity.
Qed.

Lemma nextId_addAtom seeded st :
  nextId st < INT_MAX -> nextId (addAtom seeded st) = nextId st + 1.
Proof.
  intros _. unfold addAtom. cbn [rand].
  destruct (makeElectronsForElement_rng _ seeded) as [e g3]. reflexivity.
Qed.

(** An atom-wise edit that keeps a field keeps the list of that field. *)
Lemma map_field_map {B} (field : Atom -> B) (f : Atom -> Atom) l :
  (forall a, field (f a) = field a) ->
  map field (map f l) = map field l.
Proof. intros H. rewrite map_map. apply map_ext. exact H. Qed.

Lemma map_field_drag_first {B} (field : Atom -> B) d p l :
  (forall a, field (set_pos p a) = field a) ->
  map field (drag_first d p l) = map field l.
Proof.
  intros H. induction l as [|a l IH]; simpl; auto.
  destruct (id a =? d); simpl; congruence.
Qed.

Lemma map_field_apply_at {B} (field : Atom -> B) f k :
  (forall a, field (f a) = field a) ->
  forall l, map field (apply_at f k l) = map field l.
Proof.
  intros H. induction k as [|k IH]; intros [|a l]; simpl; auto; congruence.
Qed.

Lemma map_field_list_click {B} (field : Atom -> B) m ctrl l :
  (forall b a, field (set_selected b a) = field a) ->
  map field (list_click m ctrl l) = map field l.
Proof.
  intros H. unfold list_click.
  destruct (list_row m yList l 0); auto. destruct ctrl.
  - apply map_field_apply_at. intros a. apply H.
  - rewrite map_field_apply_at by (intros a; apply H).
    apply map_field_map. intros a. apply H.
Qed.

Lemma atoms_canvas_click m ctrl st :
  exists f, (forall a, exists b, f a = set_selected b a) /\
            atoms (canvas_click m ctrl st) = map f (atoms st).
Proof.
  unfold canvas_click.
  destruct (negb (hit_test m (atoms st) =? -1)).
  - destruct ctrl.
    + eexists. split.
      2:{ destruct (find _ _); reflexivity. }
      intros a. cbn beta. destruct (id a =? _); eauto.
      exists (selected a). now destruct a.
    + eexists. split.
      2:{ destruct (find _ _); reflexivity. }
      intros a. cbn beta. eauto.
  - exists (set_selected false). split; eauto.
Qed.

Lemma map_field_canvas_click {B} (field : Atom -> B) m ctrl st :
  (forall b a, field (set_selected b a) = field a) ->
  map field (atoms (canvas_click m ctrl st)) = map field (atoms st).
Proof.
  intros H. destruct (atoms_canvas_click m ctrl st) as [f [Hf ->]].
  apply map_field_map. intros a. destruct (Hf a) as [b ->]. apply H.
Qed.

Lemma links_canvas_click m ctrl st :
  links (canvas_click m ctrl st) = links st.
Proof.
  unfold canvas_click. destruct (negb _); auto.
  destruct (find _ _); reflexivity.
Qed.

Lemma nextId_canvas_click m ctrl st :
  nextId (canvas_click m ctrl st) = nextId st.
Proof.
  unfold canvas_click. destruct (negb _); auto.
  destruct (find _ _); reflexivity.
Qed.

Lemma id_update_atom t a : id (update_atom t a) = id a.
Proof.
  unfold update_atom, integrate, activate_due.
  destruct (fires t a); simpl; destruct (active a); reflexivity.
Qed.

End Frames.

(** ** Shape of the commands *)

Section Commands.

Lemma linkPair_spec st :
  match selectedIds (atoms st) with
  | [x; y] =>
      linkPair st
      = if existsb (same_link (Z.min x y) (Z.max x y)) (links st)
        then st
        else set_links (links st ++ [mkLink (Z.min x y) (Z.max x y)]) st
  | _ => linkPair st = st
  end.
Proof.
  unfold linkPair.
  destruct (selectedIds (atoms st)) as [|x [|y [|w sel]]]; try reflexivity.
  - change (size [x; y] =? 2) with true. cbn iota.
    change (at_ 0 [x; y] 0) with x. change (at_ 0 [x; y] 1) with y.
    destruct (y <? x) eqn:E.
    + apply Z.ltb_lt in E. rewrite Z.min_r, Z.max_l by lia.
      change (fun L => (aId L =? y) && (bId L =? x)) with (same_link y x).
      destruct (existsb _ _); reflexivity.
    + apply Z.ltb_ge in E. rewrite Z.min_l, Z.max_r by lia.
      change (fun L => (aId L =? x) && (bId L =? y)) with (same_link x y).
      destruct (existsb _ _); reflexivity.
  - replace (size (x :: y :: w :: sel) =? 2) with false; auto.
    symmetry. apply Z.eqb_neq. unfold size. simpl length. lia.
Qed.

Lemma linkPair_other_count st :
  size (selectedIds (atoms st)) <> 2 -> linkPair st = st.
Proof.
  intros Hsize. pose proof (linkPair_spec st) as H.
  destruct (selectedIds (atoms st)) as [|x [|y [|w sel]]]; auto.
  now elim Hsize.
Qed.

Lemma atoms_linkPair st : atoms (linkPair st) = atoms st.
Proof.
  pose proof (linkPair_spec st) as H.
  destruct (selectedIds (atoms st)) as [|x [|y [|w sel]]];
    rewrite H; auto.
  destruct (existsb _ _); reflexivity.
Qed.

Lemma nextId_linkPair st : nextId (linkPair st) = nextId st.
Proof.
  pose proof (linkPair_spec st) as H.
  destruct (selectedIds (atoms st)) as [|x [|y [|w sel]]];
    rewrite H; auto.
  destruct (existsb _ _); reflexivity.
Qed.

Lemma mem_In i l : mem i l = true <-> In i l.
Proof.
  unfold mem. rewrite existsb_exists. split.
  - intros [x [Hin Hx]]. apply Z.eqb_eq in Hx. now subst.
  - intros Hin. exists i. split; auto. apply Z.eqb_refl.
Qed.

Lemma selectedIds_In i l :
  In i (selectedIds l) <-> exists a, In a l /\ selected a = true /\ id a = i.
Proof.
  unfold selectedIds. rewrite in_map_iff. split.
  - intros [a [Hid Hin]]. apply filter_In in Hin. destruct Hin. eauto.
  - intros [a [Hin [Hsel Hid]]]. exists a. split; auto.
    apply filter_In. auto.
Qed.

Lemma selectedIds_none l :
  (forall a, In a l -> selected a = false) -> selectedIds l = [].
Proof.
  intros H. unfold selectedIds.
  induction l as [|a l IH]; simpl; auto.
  rewrite (H a) by (now left). apply IH. intros b Hb. apply H. now right.
Qed.

Lemma map_id_unselected (f : Atom -> Atom) l :
  (forall a, In a l -> selected a = false) ->
  map (fun a => if selected a then f a else a) l = l.
Proof.
  intros H. induction l as [|a l IH]; simpl; auto.
  rewrite (H a) by (now left). f_equal. apply IH.
  intros b Hb. apply H. now right.
Qed.

Lemma filter_all {A} (p : A -> bool) l :
  (forall a, In a l -> p a = true) -> filter p l = l.
Proof.
  intros H. induction l as [|a l IH]; simpl; auto.
  rewrite (H a) by (now left). f_equal. apply IH.
  intros b Hb. apply H. now right.
Qed.

Lemma live_iff i st : live i st <-> In i (map id (atoms st)).
Proof.
  unfold live. rewrite in_map_iff. split; intros [a [H1 H2]]; eauto.
Qed.

Lemma NoDup_map_filter {A B} (f : A -> B) (p : A -> bool) l :
  NoDup (map f l) -> NoDup (map f (filter p l)).
Proof.
  induction l as [|a l IH]; simpl; auto.
  intros H. inversion H as [|? ? Hnotin Hnd]; subst.
  destruct (p a); simpl; auto. constructor; auto.
  intros Hin. apply Hnotin. apply in_map_iff in Hin.
  destruct Hin as [b [Hb Hin]]. apply filter_In in Hin.
  apply in_map_iff. exists b. tauto.
Qed.

Lemma count_link_app a b l1 l2 :
  count_link a b (l1 ++ l2) = (count_link a b l1 + count_link a b l2)%nat.
Proof. unfold count_link. now rewrite filter_app, length_app. Qed.

Lemma count_link_absent a b l :
  existsb (same_link a b) l = false -> count_link a b l = O.
Proof.
  unfold count_link. induction l as [|L l IH]; simpl; auto.
  destruct (same_link a b L); simpl; [discriminate | exact IH].
Qed.

Lemma count_link_present a b l :
  existsb (same_link a b) l = true -> (1 <= count_link a b l)%nat.
Proof.
  unfold count_link. induction l as [|L l IH]; simpl; [discriminate|].
  destruct (same_link a b L); simpl; [lia | exact IH].
Qed.

Lemma count_link_filter a b (p : Link -> bool) l :
  (count_link a b (filter p l) <= count_link a b l)%nat.
Proof.
  unfold count_link. induction l as [|L l IH]; simpl; auto.
  destruct (p L); simpl; destruct (same_link a b L); simpl; lia.
Qed.

Lemma same_link_eq a b L : same_link a b L = true <-> L = mkLink a b.
Proof.
  unfold same_link. rewrite andb_true_iff, !Z.eqb_eq. destruct L as [x y].
  simpl. split; [intros [-> ->]; reflexivity | intros [= -> ->]; auto].
Qed.

End Commands.

(** ** Invariants of the reachable states *)

Section Invariants.

(** Every input either keeps the identifiers, the links and the counter,
    or is one of the four commands that change them. *)
Lemma step_cases i st :
  (map id (atoms (step i st)) = map id (atoms st) /\
   links (step i st) = links st /\ nextId (step i st) = nextId st)
  \/ (exists seeded, step i st = addAtom seeded st /\
      (defined i st -> nextId st < INT_MAX))
  \/ step i st = removeSelected st
  \/ step i st = clearAll st
  \/ step i st = linkPair st.
Proof.
  destruct i as [x y w|x y over ctrl now seeded| |t]; cbn [step].
  - left. unfold mouseMoved. destruct (_ && _); auto.
    cbn [set_atoms atoms links nextId]. repeat split.
    apply map_field_drag_first. reflexivity.
  - unfold mousePressedLeft. destruct over as [b|].
    + destruct b; cbn [onClick].
      * left. auto.
      * left. auto.
      * right. left. exists seeded. split; auto.
      * left. unfold toggleActiveSelected. cbn. repeat split.
        rewrite map_map. apply map_ext. intros a. now destruct (selected a).
      * left. unfold scheduleSelected. cbn. repeat split.
        rewrite map_map. apply map_ext. intros a. now destruct (selected a).
      * do 4 right. reflexivity.
      * do 2 right. left. reflexivity.
      * do 3 right. left. reflexivity.
    + left. destruct (F32.ltb _ _).
      * cbn. repeat split. apply map_field_list_click. reflexivity.
      * repeat split.
        -- apply map_field_canvas_click. reflexivity.
        -- apply links_canvas_click.
        -- apply nextId_canvas_click.
  - left. auto.
  - left. cbn. repeat split. rewrite map_map. apply map_ext.
    intros a. apply id_update_atom.
Qed.

Lemma step_ids_ok i st : defined i st -> ids_ok st -> ids_ok (step i st).
Proof.
  intros Hdef [Hone [Hrange Hnd]].
  destruct (step_cases i st)
    as [[Hids [_ Hnext]]|[[seeded [-> Hmax]]|[-> |[-> | ->]]]].
  - unfold ids_ok. rewrite Hids, Hnext. auto.
  - unfold ids_ok.
    rewrite atoms_addAtom, (nextId_addAtom _ _ (Hmax Hdef)), map_app.
    cbn [map id]. split; [lia|split].
    + intros i0 Hin. apply in_app_or in Hin. destruct Hin as [Hin|[<-|[]]].
      * apply Hrange in Hin. lia.
      * lia.
    + apply NoDup_app; auto.
      * constructor; [intros [] | constructor].
      * intros i0 Hin [<-|[]]. apply Hrange in Hin. lia.
  - unfold ids_ok, removeSelected. cbn. split; [assumption|split].
    + intros i0 Hin. apply Hrange. apply in_map_iff in Hin.
      destruct Hin as [a [Ha Hin]]. apply filter_In in Hin.
      apply in_map_iff. exists a. tauto.
    + now apply NoDup_map_filter.
  - unfold ids_ok, clearAll. cbn.
    split; [assumption|split; [intros ? [] | constructor]].
  - unfold ids_ok. rewrite atoms_linkPair, nextId_linkPair. auto.
Qed.

Lemma linkPair_links_ok st : links_ok st -> links_ok (linkPair st).
Proof.
  intros [Hcan Huniq]. pose proof (linkPair_spec st) as H.
  destruct (selectedIds (atoms st)) as [|x [|y [|w sel]]];
    rewrite H; try (split; assumption).
  destruct (existsb _ _) eqn:E; [split; assumption|].
  split; cbn [set_links links].
  - intros L Hin. apply in_app_or in Hin. destruct Hin as [Hin|[<-|[]]].
    + now apply Hcan.
    + simpl. lia.
  - intros a b. rewrite count_link_app. unfold count_link at 2. simpl.
    destruct (same_link a b _) eqn:Es; simpl.
    + apply same_link_eq in Es. injection Es as <- <-.
      rewrite (count_link_absent _ _ _ E). lia.
    + specialize (Huniq a b). lia.
Qed.

Lemma step_links_ok i st : links_ok st -> links_ok (step i st).
Proof.
  intros Hok.
  destruct (step_cases i st)
    as [[_ [Hl _]]|[[seeded [-> _]]|[-> |[-> | ->]]]].
  - unfold links_ok. rewrite Hl. exact Hok.
  - unfold links_ok. rewrite links_addAtom. exact Hok.
  - destruct Hok as [Hcan Huniq]. unfold links_ok, removeSelected. cbn.
    split.
    + intros L Hin. apply filter_In in Hin. apply Hcan. tauto.
    + intros a b. etransitivity; [apply count_link_filter | apply Huniq].
  - unfold links_ok, clearAll. cbn. split; [intros ? [] | intros; lia].
  - now apply linkPair_links_ok.
Qed.

Lemma linkPair_no_dangling st : no_dangling st -> no_dangling (linkPair st).
Proof.
  intros Hnd L Hin. unfold live. rewrite atoms_linkPair.
  pose proof (linkPair_spec st) as H.
  pose proof (selectedIds_In) as Hsel.
  destruct (selectedIds (atoms st)) as [|x [|y [|w sel]]] eqn:E;
    rewrite H in Hin; try (now apply Hnd).
  destruct (existsb _ _); [now apply Hnd|].
  cbn [set_links links] in Hin. apply in_app_or in Hin.
  destruct Hin as [Hin|[<-|[]]]; [now apply Hnd|]. cbn [aId bId].
  assert (Hx : exists a, In a (atoms st) /\ id a = x).
  { destruct (proj1 (Hsel x (atoms st))) as [a Ha];
      [rewrite E; simpl; auto | exists a; tauto]. }
  assert (Hy : exists a, In a (atoms st) /\ id a = y).
  { destruct (proj1 (Hsel y (atoms st))) as [a Ha];
      [rewrite E; simpl; auto | exists a; tauto]. }
  destruct (Z.min_spec x y) as [[_ ->]|[_ ->]];
    destruct (Z.max_spec x y) as [[_ ->]|[_ ->]]; auto.
Qed.

Lemma removeSelected_no_dangling st :
  no_dangling st -> no_dangling (removeSelected st).
Proof.
  intros Hnd L Hin. unfold removeSelected in *. cbn in *.
  apply filter_In in Hin. destruct Hin as [Hin Hkeep].
  apply negb_true_iff, orb_false_iff in Hkeep. destruct Hkeep as [Ha Hb].
  destruct (Hnd L Hin) as [[a [Hain Haid]] [b [Hbin Hbid]]].
  split.
  - exists a. split; auto. apply filter_In. split; auto.
    rewrite Haid, Ha. reflexivity.
  - exists b. split; auto. apply filter_In. split; auto.
    rewrite Hbid, Hb. reflexivity.
Qed.

Lemma step_no_dangling i st : no_dangling st -> no_dangling (step i st).
Proof.
  intros Hnd.
  destruct (step_cases i st)
    as [[Hids [Hl _]]|[[seeded [-> _]]|[-> |[-> | ->]]]].
  - intros L Hin. rewrite !live_iff, Hids, <- !live_iff.
    apply Hnd. now rewrite <- Hl.
  - intros L Hin. rewrite links_addAtom in Hin.
    rewrite !live_iff, atoms_addAtom, map_app.
    destruct (Hnd L Hin) as [Ha Hb]. rewrite live_iff in Ha, Hb.
    split; apply in_or_app; auto.
  - now apply removeSelected_no_dangling.
  - intros L [].
  - now apply linkPair_no_dangling.
Qed.

Lemma reachable_invariants g0 st :
  reachable g0 st -> ids_ok st /\ links_ok st /\ no_dangling st.
Proof.
  induction 1 as [|st i Hreach [Hids [Hlinks Hnd]] Hdef].
  - split; [|split].
    + split; [simpl; lia|split; [intros ? []|constructor]].
    + split; [intros ? []|intros a b; unfold count_link; simpl; lia].
    + intros ? [].
  - split; [|split].
    + now apply step_ids_ok.
    + now apply step_links_ok.
    + now apply step_no_dangling.
Qed.

End Invariants.

Section Runs.

Lemma reachable_run g0 inputs :
  forall st, reachable g0 st -> all_defined inputs st ->
             reachable g0 (run inputs st).
Proof.
  induction inputs as [|i rest IH]; intros st Hst Hdef; simpl; auto.
  destruct Hdef as [Hi Hrest]. apply IH; auto. now constructor.
Qed.

Lemma reachable_from_init g0 inputs :
  all_defined inputs (init g0) -> reachable g0 (run inputs (init g0)).
Proof. apply reachable_run. constructor. Qed.

End Runs.

(** ** Commands and selection *)

(** C6.  With no atom selected, [toggleActiveSelected], [scheduleSelected],
    [linkPair] and [removeSelected] return the state they were given; and
    [linkPair] does so whenever the number of selected atoms is not two.
    The commands are total functions: there is no error to signal. *)
Theorem commands_noop_without_selection (st : State) (now : float) :
  ((forall a, In a (atoms st) -> selected a = false) ->
   toggleActiveSelected st = st /\
   scheduleSelected now st = st /\
   linkPair st = st /\
   removeSelected st = st)
  /\ (size (selectedIds (atoms st)) <> 2 -> linkPair st = st).
Proof.
  split.
  - intros Hnone. repeat split.
    + unfold toggleActiveSelected. rewrite map_id_unselected by assumption.
      now destruct st.
    + unfold scheduleSelected. rewrite map_id_unselected by assumption.
      now destruct st.
    + pose proof (linkPair_spec st) as H.
      now rewrite (selectedIds_none _ Hnone) in H.
    + unfold removeSelected. rewrite (selectedIds_none _ Hnone).
      rewrite !filter_all by reflexivity. now destruct st.
  - apply linkPair_other_count.
Qed.

Lemma commands_noop_without_selection_witness :
  let st := run [click_button BtnAddAtom 84 (F32.of_Z 1)] (init test_rand) in
  (toggleActiveSelected st = st /\
   scheduleSelected (F32.of_Z 5) st = st /\
   linkPair st = st /\
   removeSelected st = st)
  /\ linkPair (run one_selected (init test_rand))
     = run one_selected (init test_rand).
Proof.
  split.
  - apply (commands_noop_without_selection
             (run [click_button BtnAddAtom 84 (F32.of_Z 1)] (init test_rand))
             (F32.of_Z 5)).
    intros a [<-|[]]. reflexivity.
  - apply (commands_noop_without_selection
             (run one_selected (init test_rand)) (F32.of_Z 5)).
    vm_compute. discriminate.
Defined.

Section Links.

Lemma count_pair_canonical x y l :
  (forall L, In L l -> aId L <= bId L) ->
  count_pair x y l = count_link (Z.min x y) (Z.max x y) l.
Proof.
  intros Hcan. unfold count_pair, count_link. f_equal.
  apply filter_ext_in. intros L HL. specialize (Hcan L HL).
  apply eq_true_iff_eq. unfold same_link.
  rewrite orb_true_iff, !andb_true_iff, !Z.eqb_eq. lia.
Qed.

Lemma linkPair_idempotent st : linkPair (linkPair st) = linkPair st.
Proof.
  pose proof (linkPair_spec st) as H.
  destruct (selectedIds (atoms st)) as [|x [|y [|w sel]]] eqn:E;
    try (rewrite H; exact H).
  destruct (existsb _ (links st)) eqn:Ex; [rewrite H; exact H|].
  rewrite H.
  pose proof (linkPair_spec
                (set_links (links st ++ [mkLink (Z.min x y) (Z.max x y)]) st))
    as H'.
  cbn [set_links atoms links] in H'. rewrite E in H'.
  rewrite existsb_app in H'. cbn [existsb] in H'.
  replace (same_link (Z.min x y) (Z.max x y) (mkLink (Z.min x y) (Z.max x y)))
    with true in H'
    by (symmetry; now apply same_link_eq).
  rewrite orb_true_r in H'. exact H'.
Qed.

Lemma linkPair_present st x y :
  selectedIds (atoms st) = [x; y] ->
  existsb (same_link (Z.min x y) (Z.max x y)) (links (linkPair st)) = true.
Proof.
  intros E. pose proof (linkPair_spec st) as H. rewrite E in H. rewrite H.
  destruct (existsb _ (links st)) eqn:Ex; auto.
  cbn [set_links links]. rewrite existsb_app. cbn [existsb].
  replace (same_link (Z.min x y) (Z.max x y) (mkLink (Z.min x y) (Z.max x y)))
    with true by (symmetry; now apply same_link_eq).
  now rewrite orb_true_r.
Qed.

Lemma same_id_same_atom l :
  NoDup (map id l) ->
  forall a b, In a l -> In b l -> id a = id b -> a = b.
Proof.
  induction l as [|c l IH]; intros Hnd a b Ha Hb Hid; [contradiction|].
  inversion Hnd as [|? ? Hnotin Hnd']; subst.
  destruct Ha as [<-|Ha], Hb as [<-|Hb]; auto.
  - elim Hnotin. rewrite Hid. now apply in_map.
  - elim Hnotin. rewrite <- Hid. now apply in_map.
Qed.

End Links.

(** C4.  With exactly two atoms selected, of identifiers [x] and [y],
    [linkPair] appends the link (min x y, max x y), smaller identifier
    first, unless the link set already holds it; calling [linkPair] a second
    time changes nothing, and afterwards exactly one link joins the two
    atoms.  With any other number of selected atoms [linkPair] leaves the
    state, hence the link set, as it is. *)
Theorem linkPair_canonical_dedup (g0 : Rand) (st : State) :
  reachable g0 st ->
  (forall x y,
     selectedIds (atoms st) = [x; y] ->
     Z.min x y <= Z.max x y /\
     links (linkPair st)
     = (if existsb (same_link (Z.min x y) (Z.max x y)) (links st)
        then links st
        else links st ++ [mkLink (Z.min x y) (Z.max x y)]) /\
     count_pair x y (links (linkPair st)) = 1%nat /\
     count_pair x y (links (linkPair (linkPair st))) = 1%nat)
  /\ linkPair (linkPair st) = linkPair st
  /\ (size (selectedIds (atoms st)) <> 2 ->
      linkPair st = st /\ links (linkPair st) = links st).
Proof.
  intros Hreach.
  destruct (reachable_invariants _ _ Hreach) as [_ [Hlinks _]].
  split; [|split].
  - intros x y E. split; [lia|split; [|split]].
    + pose proof (linkPair_spec st) as H. rewrite E in H. rewrite H.
      now destruct (existsb _ _).
    + destruct (linkPair_links_ok _ Hlinks) as [Hcan Huniq].
      rewrite count_pair_canonical by assumption.
      pose proof (count_link_present _ _ _ (linkPair_present st x y E)).
      specialize (Huniq (Z.min x y) (Z.max x y)). lia.
    + rewrite linkPair_idempotent.
      destruct (linkPair_links_ok _ Hlinks) as [Hcan Huniq].
      rewrite count_pair_canonical by assumption.
      pose proof (count_link_present _ _ _ (linkPair_present st x y E)).
      specialize (Huniq (Z.min x y) (Z.max x y)). lia.
  - apply linkPair_idempotent.
  - intros Hsize. rewrite linkPair_other_count by assumption. auto.
Qed.

Lemma linkPair_canonical_dedup_witness :
  let st := run two_selected (init test_rand) in
  selectedIds (atoms st) = [1; 2] /\
  links (linkPair st) = [mkLink 1 2] /\
  count_pair 1 2 (links (linkPair (linkPair st))) = 1%nat.
Proof.
  assert (Hr : reachable test_rand (run two_selected (init test_rand))).
  { apply reachable_from_init. vm_compute. repeat split. }
  destruct (linkPair_canonical_dedup _ _ Hr) as [H _].
  destruct (H 1 2 eq_refl) as [_ [Hl [_ Hc]]].
  split; [reflexivity|]. split; [exact Hl|exact Hc].
Defined.

(** ** Removal *)

(** C5.  [removeSelected] removes exactly the selected atoms and, in the
    same call, every link one of whose endpoints is the identifier of a
    removed atom.  In every reachable state each link joins two live atoms,
    and every input keeps it so; removing an endpoint of a link removes the
    link. *)
Theorem removeSelected_prunes_links (g0 : Rand) (st : State) :
  reachable g0 st ->
  atoms (removeSelected st) = filter (fun a => negb (selected a)) (atoms st)
  /\ (forall L,
        In L (links (removeSelected st)) <->
        In L (links st) /\
        forall a, In a (atoms st) -> selected a = true ->
                  id a <> aId L /\ id a <> bId L)
  /\ no_dangling st
  /\ no_dangling (removeSelected st)
  /\ (forall i, no_dangling (step i st))
  /\ (forall L a,
        In L (links st) -> In a (atoms st) -> selected a = true ->
        id a = aId L \/ id a = bId L ->
        ~ In L (links (removeSelected st))).
Proof.
  intros Hreach.
  destruct (reachable_invariants _ _ Hreach) as [[_ [_ Hnd]] [_ Hdang]].
  assert (Hlinks : forall L,
            In L (links (removeSelected st)) <->
            In L (links st) /\
            forall a, In a (atoms st) -> selected a = true ->
                      id a <> aId L /\ id a <> bId L).
  { intros L. unfold removeSelected. cbn [set_links set_atoms links atoms].
    rewrite filter_In, negb_true_iff, orb_false_iff.
    split; intros [Hin H]; split; auto.
    - intros a Ha Hsel. destruct H as [H1 H2].
      split; intros Heq.
      + assert (Hm : mem (aId L) (selectedIds (atoms st)) = true)
          by (apply mem_In, selectedIds_In; eauto).
        congruence.
      + assert (Hm : mem (bId L) (selectedIds (atoms st)) = true)
          by (apply mem_In, selectedIds_In; eauto).
        congruence.
    - split.
      + destruct (mem (aId L) _) eqn:E; auto.
        apply mem_In, selectedIds_In in E.
        destruct E as [a [Ha [Hsel Hid]]]. destruct (H a Ha Hsel). contradiction.
      + destruct (mem (bId L) _) eqn:E; auto.
        apply mem_In, selectedIds_In in E.
        destruct E as [a [Ha [Hsel Hid]]]. destruct (H a Ha Hsel). contradiction. }
  refine (conj _ (conj Hlinks (conj Hdang (conj _ (conj _ _))))).
  - unfold removeSelected. cbn [set_links set_atoms atoms].
    apply filter_ext_in. intros a Ha. f_equal.
    destruct (selected a) eqn:Hsel.
    + apply mem_In, selectedIds_In. eauto.
    + destruct (mem _ _) eqn:E; auto.
      apply mem_In, selectedIds_In in E. destruct E as [b [Hb [Hbsel Hid]]].
      assert (b = a) by (apply (same_id_same_atom _ Hnd); auto).
      congruence.
  - apply (removeSelected_no_dangling _ Hdang).
  - intros i. apply (step_no_dangling _ _ Hdang).
  - intros L a HL Ha Hsel Hend Hin. apply Hlinks in Hin.
    destruct Hin as [_ H]. destruct (H a Ha Hsel). tauto.
Qed.

Lemma removeSelected_prunes_links_witness :
  let st := run linked_one_selected (init test_rand) in
  links st = [mkLink 1 2] /\
  ~ In (mkLink 1 2) (links (removeSelected st)) /\
  no_dangling (removeSelected st).
Proof.
  assert (Hr : reachable test_rand
                 (run linked_one_selected (init test_rand))).
  { apply reachable_from_init. vm_compute. repeat split. }
  destruct (removeSelected_prunes_links _ _ Hr)
    as [_ [_ [_ [Hnd [_ Hrm]]]]].
  split; [reflexivity|]. split; [|exact Hnd].
  apply (Hrm (mkLink 1 2)
             (hd dummy_atom
                 (atoms (run linked_one_selected (init test_rand))))).
  - vm_compute. auto.
  - vm_compute. auto.
  - reflexivity.
  - left. reflexivity.
Defined.

(** ** Activation and scheduling *)

Section Modes.





Lemma fires_clears t a :
  fires t a = true ->
  active (update_atom t a) = true /\ scheduledStart (update_atom t a) = None.
Proof.
  intros F. unfold update_atom, integrate, activate_due. rewrite F. auto.
Qed.

End Modes.




Section Schedule.

Lemma update_atom_not_due t a :
  fires t a = false ->
  active (update_atom t a) = active a /\
  scheduledStart (update_atom t a) = scheduledStart a.
Proof.
  intros F. unfold update_atom, integrate, activate_due. rewrite F.
  destruct (active a) eqn:A; cbn; auto.
Qed.















End Schedule.

Section FrameRuns.


Lemma nth_error_frame t st k a :
  nth_error (atoms st) k = Some a ->
  nth_error (atoms (frame t st)) k = Some (update_atom t a).
Proof.
  intros H. cbn [frame set_atoms atoms]. now rewrite nth_error_map, H.
Qed.



End FrameRuns.




(** ** Orbit integration *)

(** C8, as the program has it.  A per-frame update first fires the due
    schedules and then integrates.  So it advances the angle of every
    electron by [speed * (1/60)] for every atom that is active when the
    update starts and for every atom whose schedule is due at the time of
    the update (that atom is active afterwards); an atom that is inactive
    and has no schedule due is left exactly as it was.  Radii and speeds
    are never touched, and [toggleActiveSelected] does not touch any
    electron. *)
Theorem frame_advances_active_atoms (t : float) (st : State) :
  atoms (frame t st) = map (update_atom t) (atoms st)
  /\ (forall k a,
        nth_error (atoms st) k = Some a ->
        exists a',
          nth_error (atoms (frame t st)) k = Some a' /\
          (active a = true \/ fires t a = true ->
           active a' = true /\
           electrons a' = map advance (electrons a)) /\
          (active a = false -> fires t a = false -> a' = a) /\
          (active a' = true ->
           electrons a' = map advance (electrons a)) /\
          (active a' = false -> electrons a' = electrons a))
  /\ (forall e,
        radius (advance e) = radius e /\
        speed (advance e) = speed e /\
        angle (advance e)
        = F32.add (angle e)
                  (F32.mul (speed e) (F32.div (F32.of_Z 1) (F32.of_Z 60))))
  /\ map electrons (atoms (toggleActiveSelected st)) = map electrons (atoms st).
Proof.
  split; [reflexivity|]. split; [|split].
  - intros k a Hnth. exists (update_atom t a).
    split; [now apply nth_error_frame|].
    unfold update_atom, integrate, activate_due.
    destruct (fires t a) eqn:F; cbn.
    + split; [|split; [|split]]; intros; auto; discriminate.
    + destruct (active a) eqn:A; cbn; rewrite ?A.
      * split; [|split; [|split]]; intros; auto; discriminate.
      * split; [intros [Hc|Hc]; discriminate|].
        split; [|split]; intros; auto; discriminate.
  - intros e. repeat split.
  - unfold toggleActiveSelected. cbn [set_atoms atoms].
    rewrite map_map. apply map_ext. intros a. now destruct (selected a).
Qed.

(** C8 as stated fails in the frame in which a schedule fires: the atom
    scheduled at 5.0 is inactive when the frame at 7.1 starts, and its
    electron is advanced in that frame. *)
Lemma inactive_atom_advanced_counterexample :
  ~ (forall g0 st t k a,
       reachable g0 st ->
       nth_error (atoms st) k = Some a ->
       active a = false ->
       exists a',
         nth_error (atoms (frame t st)) k = Some a' /\
         electrons a' = electrons a).
Proof.
  intros H.
  assert (Hr : reachable test_rand (run scheduled_at_5 (init test_rand))).
  { apply reachable_from_init. vm_compute. repeat split. }
  assert (Hnth : nth_error (atoms (run scheduled_at_5 (init test_rand))) 0
                 = Some (hd dummy_atom
                            (atoms (run scheduled_at_5 (init test_rand)))))
    by (vm_compute; reflexivity).
  assert (Hact : active (hd dummy_atom
                            (atoms (run scheduled_at_5 (init test_rand))))
                 = false) by (vm_compute; reflexivity).
  destruct (H test_rand _ (F32.lit 71 10) O _ Hr Hnth Hact) as [a [Hn He]].
  vm_compute in Hn. injection Hn as Hn. subst a.
  vm_compute in He. discriminate He.
Qed.

(** ** Dragging *)

Section Drag.

Lemma find_drag_first d p l a :
  find (fun b => id b =? d) l = Some a ->
  find (fun b => id b =? d) (drag_first d p l) = Some (set_pos p a).
Proof.
  induction l as [|c l IH]; simpl; [discriminate|].
  destruct (id c =? d) eqn:E.
  - intros [= ->]. simpl. now rewrite E.
  - intros H. simpl. rewrite E. auto.
Qed.

Lemma find_map_same_id (f : Atom -> Atom) h l :
  (forall a, id (f a) = id a) ->
  find (fun b => id b =? h) (map f l)
  = option_map f (find (fun b => id b =? h) l).
Proof.
  intros Hf. induction l as [|c l IH]; simpl; auto.
  rewrite Hf. destruct (id c =? h); auto.
Qed.

Lemma find_id_some h l :
  In h (map id l) -> exists a, find (fun b => id b =? h) l = Some a.
Proof.
  induction l as [|c l IH]; simpl; [contradiction|].
  intros [<-|Hin].
  - rewrite Z.eqb_refl. eauto.
  - destruct (id c =? h); eauto.
Qed.

Lemma find_id_eq h l a :
  find (fun b => id b =? h) l = Some a -> id a = h /\ In a l.
Proof.
  intros H. apply find_some in H. destruct H as [Hin Heq].
  apply Z.eqb_eq in Heq. auto.
Qed.

(** The hit loop returns -1 or the identifier of the last atom within
    reach. *)
Lemma hit_loop_result m l :
  forall h0,
    (fold_left (fun hitId a => if within_reach m a then id a else hitId) l h0
     = h0 /\ forall a, In a l -> within_reach m a = false)
    \/ exists a, In a l /\ within_reach m a = true /\
                 fold_left (fun hitId a =>
                              if within_reach m a then id a else hitId) l h0
                 = id a.
Proof.
  induction l as [|c l IH]; intros h0; simpl.
  - left. split; auto. intros a [].
  - destruct (within_reach m c) eqn:E.
    + right. destruct (IH (id c)) as [[H _]|[a [Ha [Hr H]]]].
      * exists c. auto.
      * exists a. auto.
    + destruct (IH h0) as [[H Hall]|[a [Ha [Hr H]]]].
      * left. split; auto. intros a [<-|Ha]; auto.
      * right. exists a. auto.
Qed.

Lemma hit_test_hits m l a0 :
  In a0 l -> within_reach m a0 = true ->
  exists a, In a l /\ within_reach m a = true /\ hit_test m l = id a.
Proof.
  intros Hin Hr. unfold hit_test.
  destruct (hit_loop_result m l (-1)) as [[_ Hall]|H]; auto.
  rewrite (Hall a0 Hin) in Hr. discriminate.
Qed.

End Drag.

(** C7.  While an atom is dragged, in a window whose canvas rectangle is
    not empty (the precondition of [std::clamp]), a pointer move to
    [(x, y)] sets the position of that atom to
    [clampToCanvas (pointer - dragOffset)]: each coordinate is [lo] when it
    is below [lo], [hi] when it is above [hi] and itself otherwise, for the
    bounds [SIDEBAR_W + 20 .. winWidth - 20] and [20 .. winHeight - 20]; so
    a point inside the rectangle is kept as it is, and the result lies in
    the rectangle.  With grab offset (5, 5) and the pointer at (450, 280)
    in the 1200 x 800 window the position is (445, 275). *)
Theorem drag_sets_clamped_position (x y : Z) (winSize : Z * Z) (st : State)
    (a : Atom) :
  dragging st = true ->
  draggingId st <> -1 ->
  find (fun b => id b =? draggingId st) (atoms st) = Some a ->
  F32.leb (F32.add SIDEBAR_W (F32.of_Z 20))
          (F32.sub (F32.of_Z (fst winSize)) (F32.of_Z 20)) = true ->
  F32.leb (F32.of_Z 20)
          (F32.sub (F32.of_Z (snd winSize)) (F32.of_Z 20)) = true ->
  let q := vsub (mkVec (F32.of_Z x) (F32.of_Z y)) (dragOffset st) in
  let xlo := F32.add SIDEBAR_W (F32.of_Z 20) in
  let xhi := F32.sub (F32.of_Z (fst winSize)) (F32.of_Z 20) in
  let ylo := F32.of_Z 20 in
  let yhi := F32.sub (F32.of_Z (snd winSize)) (F32.of_Z 20) in
  let p := mkVec
             (if F32.ltb (vx q) xlo then xlo
              else if F32.ltb xhi (vx q) then xhi else vx q)
             (if F32.ltb (vy q) ylo then ylo
              else if F32.ltb yhi (vy q) then yhi else vy q) in
  find (fun b => id b =? draggingId st) (atoms (mouseMoved x y winSize st))
  = Some (set_pos p a)
  /\ p = clampToCanvas q winSize
  /\ (F32.ltb (vx q) xlo = false -> F32.ltb xhi (vx q) = false ->
      F32.ltb (vy q) ylo = false -> F32.ltb yhi (vy q) = false -> p = q)
  /\ (F32.is_nan (vx q) = false ->
      F32.leb xlo (vx p) = true /\ F32.leb (vx p) xhi = true)
  /\ (F32.is_nan (vy q) = false ->
      F32.leb ylo (vy p) = true /\ F32.leb (vy p) yhi = true)
  /\ clampToCanvas (vsub (mkVec (F32.of_Z 450) (F32.of_Z 280))
                         (mkVec (F32.of_Z 5) (F32.of_Z 5)))
                   (1200, 800)
     = mkVec (F32.of_Z 445) (F32.of_Z 275).
Proof.
  intros Hdrag Hid Hfind Hx Hy q xlo xhi ylo yhi p.
  assert (Hp : p = clampToCanvas q winSize).
  { subst p. unfold clampToCanvas.
    now rewrite !clamp_in_order by assumption. }
  split; [|split; [exact Hp|split; [|split; [|split]]]].
  - unfold mouseMoved. rewrite Hdrag.
    replace (draggingId st =? -1) with false
      by (symmetry; now apply Z.eqb_neq).
    cbn [andb negb set_atoms atoms]. rewrite Hp.
    now apply find_drag_first.
  - intros H1 H2 H3 H4. subst p. rewrite H1, H2, H3, H4. now destruct q.
  - intros Hnan. subst p. cbn [vx].
    rewrite <- (clamp_in_order (vx q) xlo xhi Hx). now apply clamp_bounds.
  - intros Hnan. subst p. cbn [vy].
    rewrite <- (clamp_in_order (vy q) ylo yhi Hy). now apply clamp_bounds.
  - vm_compute. reflexivity.
Qed.

(** The scenario of the specification, from the press on. *)
Lemma drag_sets_clamped_position_witness :
  let st := step (press_on_A false) drag_scenario_start in
  dragOffset st = mkVec (F32.of_Z 5) (F32.of_Z 5) /\
  map pos (atoms (mouseMoved 450 280 (1200, 800) st))
  = [mkVec (F32.of_Z 445) (F32.of_Z 275)] /\
  find (fun b => id b =? 1) (atoms (mouseMoved 450 280 (1200, 800) st))
  = Some (set_pos (mkVec (F32.of_Z 445) (F32.of_Z 275))
                  (set_selected true atom_at_400_300)).
Proof.
  cbv zeta.
  assert (Hdrag : dragging (step (press_on_A false) drag_scenario_start)
                  = true) by (vm_compute; reflexivity).
  assert (Hid : draggingId (step (press_on_A false) drag_scenario_start)
                <> -1) by (vm_compute; discriminate).
  assert (Hfind : find (fun b => id b
                                 =? draggingId (step (press_on_A false)
                                                     drag_scenario_start))
                       (atoms (step (press_on_A false) drag_scenario_start))
                  = Some (set_selected true atom_at_400_300))
    by (vm_compute; reflexivity).
  assert (Hx : F32.leb (F32.add SIDEBAR_W (F32.of_Z 20))
                       (F32.sub (F32.of_Z (fst (1200, 800))) (F32.of_Z 20))
               = true) by (vm_compute; reflexivity).
  assert (Hy : F32.leb (F32.of_Z 20)
                       (F32.sub (F32.of_Z (snd (1200, 800))) (F32.of_Z 20))
               = true) by (vm_compute; reflexivity).
  destruct (drag_sets_clamped_position 450 280 (1200, 800) _ _
              Hdrag Hid Hfind Hx Hy) as [Hmove _].
  split; [vm_compute; reflexivity|]. split; [vm_compute; reflexivity|].
  vm_compute in Hmove |- *. exact Hmove.
Defined.

(** C10.  A left press on the canvas, not on a button, with some atom
    within reach of the pointer starts dragging the atom the hit loop
    reports, whatever the Control key and whatever the selection flag of
    that atom becomes: with Control held a selected atom is deselected by
    the press and dragged all the same. *)
Theorem canvas_hit_starts_drag (g0 : Rand) (st : State) (x y : Z)
    (ctrl : bool) (now : float) (seeded : Rand) (a0 : Atom) :
  reachable g0 st ->
  F32.ltb (F32.of_Z x) SIDEBAR_W = false ->
  In a0 (atoms st) ->
  within_reach (mkVec (F32.of_Z x) (F32.of_Z y)) a0 = true ->
  let m := mkVec (F32.of_Z x) (F32.of_Z y) in
  let st' := mousePressedLeft x y None ctrl now seeded st in
  dragging st' = true
  /\ draggingId st' = hit_test m (atoms st)
  /\ exists a,
       In a (atoms st) /\ within_reach m a = true /\
       id a = hit_test m (atoms st) /\
       dragOffset st' = vsub m (pos a) /\
       find (fun b => id b =? id a) (atoms st')
       = Some (set_selected (if ctrl then negb (selected a) else true) a).
Proof.
  intros Hreach Hcanvas Hin Hwithin m st'.
  destruct (reachable_invariants _ _ Hreach) as [[_ [Hrange Hnd]] _].
  destruct (hit_test_hits m (atoms st) a0 Hin Hwithin) as [b [Hb [Hrb Hhit]]].
  assert (Hne : (hit_test m (atoms st) =? -1) = false).
  { apply Z.eqb_neq. rewrite Hhit.
    assert (1 <= id b < nextId st) by (apply Hrange; now apply in_map).
    lia. }
  destruct (find_id_some (hit_test m (atoms st)) (atoms st)) as [a Hfind].
  { rewrite Hhit. now apply in_map. }
  destruct (find_id_eq _ _ _ Hfind) as [Hida Hina].
  assert (a = b).
  { apply (same_id_same_atom _ Hnd); auto. congruence. }
  subst b.
  subst st'. unfold mousePressedLeft. cbn [vx]. rewrite Hcanvas.
  unfold canvas_click. fold m. cbv zeta. rewrite Hne. cbn [negb].
  destruct ctrl.
  - rewrite find_map_same_id
      by (intros c; destruct (id c =? _); reflexivity).
    rewrite Hfind. cbn [option_map]. rewrite Hida, Z.eqb_refl.
    cbn [set_drag set_atoms dragging draggingId dragOffset atoms
         set_selected pos].
    split; [reflexivity|]. split; [reflexivity|].
    exists a. rewrite Hida.
    rewrite find_map_same_id
      by (intros c; destruct (id c =? _); reflexivity).
    rewrite Hfind. cbn [option_map]. rewrite Hida, Z.eqb_refl.
    repeat split; assumption.
  - rewrite find_map_same_id by reflexivity.
    rewrite Hfind. cbn [option_map].
    cbn [set_drag set_atoms dragging draggingId dragOffset atoms
         set_selected pos].
    split; [reflexivity|]. split; [reflexivity|].
    exists a. rewrite Hida.
    rewrite find_map_same_id by reflexivity.
    rewrite Hfind. cbn [option_map]. rewrite Hida, Z.eqb_refl.
    repeat split; assumption.
Qed.

(** A selected atom, pressed with Control held: deselected, and dragged. *)
Lemma canvas_hit_starts_drag_witness :
  let st := run one_selected (init test_rand) in
  let st' := mousePressedLeft 770 195 None true (F32.of_Z 3) test_rand st in
  map selected (atoms st) = [true] /\
  map selected (atoms st') = [false] /\
  dragging st' = true /\
  draggingId st' = 1.
Proof.
  cbv zeta.
  assert (Hr : reachable test_rand (run one_selected (init test_rand))).
  { apply reachable_from_init. vm_compute. repeat split. }
  assert (Hcanvas : F32.ltb (F32.of_Z 770) SIDEBAR_W = false)
    by (vm_compute; reflexivity).
  assert (Hin : In (hd dummy_atom (atoms (run one_selected (init test_rand))))
                   (atoms (run one_selected (init test_rand))))
    by (vm_compute; auto).
  assert (Hwithin : within_reach
                      (mkVec (F32.of_Z 770) (F32.of_Z 195))
                      (hd dummy_atom
                          (atoms (run one_selected (init test_rand))))
                    = true)
    by (vm_compute; reflexivity).
  destruct (canvas_hit_starts_drag test_rand _ 770 195 true (F32.of_Z 3)
              test_rand _ Hr Hcanvas Hin Hwithin) as [Hd [Hid _]].
  split; [vm_compute; reflexivity|]. split; [vm_compute; reflexivity|].
  split; [exact Hd|]. rewrite Hid. vm_compute. reflexivity.
Defined.

(** The frame in which the schedule set at 5.0 fires advances the electron
    of the atom; the frame before leaves the atom as it was. *)
Lemma frame_advances_active_atoms_witness :
  let st := run scheduled_at_5 (init test_rand) in
  let a := hd dummy_atom (atoms st) in
  active a = false /\
  nth_error (atoms (frame (F32.lit 69 10) st)) 0 = Some a /\
  exists a',
    nth_error (atoms (frame (F32.lit 71 10) st)) 0 = Some a' /\
    active a' = true /\
    electrons a' = map advance (electrons a).
Proof.
  cbv zeta.
  assert (Hnth : nth_error (atoms (run scheduled_at_5 (init test_rand))) 0
                 = Some (hd dummy_atom
                            (atoms (run scheduled_at_5 (init test_rand)))))
    by (vm_compute; reflexivity).
  destruct (frame_advances_active_atoms
              (F32.lit 69 10) (run scheduled_at_5 (init test_rand)))
    as [_ [Hearly _]].
  destruct (frame_advances_active_atoms
              (F32.lit 71 10) (run scheduled_at_5 (init test_rand)))
    as [_ [Hdue _]].
  destruct (Hearly O _ Hnth) as [a1 [Hn1 [_ [Hsame _]]]].
  destruct (Hdue O _ Hnth) as [a2 [Hn2 [Hadv _]]].
  split; [vm_compute; reflexivity|]. split.
  - rewrite Hn1. f_equal. apply Hsame; vm_compute; reflexivity.
  - exists a2. split; [exact Hn2|]. apply Hadv. right.
    vm_compute. reflexivity.
Defined.

(** * Further properties of the code *)

(** ** What a step does to the scalar variables *)

Section Scalars.

Lemma selectedElement_addAtom seeded st :
  selectedElement (addAtom seeded st) = selectedElement st.
Proof.
  unfold addAtom. cbn [rand].
  destruct (makeElectronsForElement_rng _ seeded) as [e g3]. reflexivity.
Qed.

Lemma drag_addAtom seeded st :
  dragging (addAtom seeded st) = dragging st /\
  draggingId (addAtom seeded st) = draggingId st /\
  dragOffset (addAtom seeded st) = dragOffset st.
Proof.
  unfold addAtom. cbn [rand].
  destruct (makeElectronsForElement_rng _ seeded) as [e g3]. auto.
Qed.

Lemma drag_linkPair st :
  dragging (linkPair st) = dragging st /\
  draggingId (linkPair st) = draggingId st /\
  dragOffset (linkPair st) = dragOffset st /\
  selectedElement (linkPair st) = selectedElement st.
Proof.
  pose proof (linkPair_spec st) as H.
  destruct (selectedIds (atoms st)) as [|x [|y [|w sel]]];
    rewrite H; auto.
  destruct (existsb _ _); auto.
Qed.

Lemma selectedElement_canvas_click m ctrl st :
  selectedElement (canvas_click m ctrl st) = selectedElement st.
Proof.
  unfold canvas_click. destruct (negb _); auto.
  destruct (find _ _); reflexivity.
Qed.

(** Only the two element buttons move the element cursor. *)
Lemma step_selectedElement i st :
  selectedElement (step i st) = selectedElement st
  \/ step i st = prevElement st
  \/ step i st = nextElement st.
Proof.
  destruct i as [x y w|x y over ctrl now seeded| |t]; cbn [step].
  - left. unfold mouseMoved. now destruct (_ && _).
  - unfold mousePressedLeft. destruct over as [b|].
    + destruct b; cbn [onClick]; auto.
      * left. apply selectedElement_addAtom.
      * left. apply drag_linkPair.
    + left. destruct (F32.ltb _ _); auto.
      apply selectedElement_canvas_click.
  - now left.
  - now left.
Qed.

(** A step keeps the drag variables, ends the drag, or starts one on an
    atom of the store. *)
Lemma step_drag i st :
  (dragging (step i st) = dragging st /\
   draggingId (step i st) = draggingId st)
  \/ (dragging (step i st) = false /\ draggingId (step i st) = -1)
  \/ (dragging (step i st) = true /\
      In (draggingId (step i st)) (map id (atoms st))).
Proof.
  destruct i as [x y w|x y over ctrl now seeded| |t]; cbn [step].
  - left. unfold mouseMoved. now destruct (_ && _).
  - unfold mousePressedLeft. destruct over as [b|].
    + left. destruct b; cbn [onClick]; auto.
      * destruct (drag_addAtom seeded st) as [? [? ?]]. auto.
      * destruct (drag_linkPair st) as [? [? ?]]. auto.
    + destruct (F32.ltb _ _); [now left|].
      unfold canvas_click. destruct (negb _); [|now left].
      destruct (find _ _) as [a|] eqn:E; [|now left].
      right. right. cbn. split; auto.
      apply find_some in E. destruct E as [Hin Hid].
      apply Z.eqb_eq in Hid. rewrite <- Hid.
      apply (in_map id) in Hin.
      destruct ctrl.
      * rewrite map_field_map in Hin; auto.
        intros c. now destruct (id c =? _).
      * rewrite map_field_map in Hin; auto.
  - right. left. auto.
  - now left.
Qed.

Lemma nextId_step i st : defined i st -> nextId st <= nextId (step i st).
Proof.
  intros Hdef.
  destruct (step_cases i st)
    as [[_ [_ Hn]]|[[seeded [-> Hmax]]|[-> |[-> | ->]]]].
  - lia.
  - rewrite (nextId_addAtom _ _ (Hmax Hdef)). lia.
  - cbn. lia.
  - cbn. lia.
  - rewrite nextId_linkPair. lia.
Qed.

Lemma increasing_snoc l n :
  increasing l -> (forall i, In i l -> i < n) -> increasing (l ++ [n]).
Proof.
  unfold increasing. induction 1 as [|a l Hl IH Ha]; intros Hn; simpl.
  - repeat constructor.
  - constructor.
    + apply IH. intros i Hi. apply Hn. now right.
    + apply Forall_app. split; auto. constructor; auto.
      apply Hn. now left.
Qed.

Lemma increasing_filter (p : Atom -> bool) l :
  increasing (map id l) -> increasing (map id (filter p l)).
Proof.
  unfold increasing. induction l as [|a l IH]; simpl; auto.
  intros H. apply StronglySorted_inv in H. destruct H as [Hl Ha].
  destruct (p a); simpl; auto. constructor; auto.
  rewrite Forall_forall in *. intros i Hi. apply Ha.
  apply in_map_iff in Hi. destruct Hi as [b [<- Hb]].
  apply filter_In in Hb. apply in_map. tauto.
Qed.

Lemma reachable_increasing g0 st :
  reachable g0 st -> increasing (map id (atoms st)).
Proof.
  induction 1 as [|st i Hreach IH Hdef]; [constructor|].
  destruct (reachable_invariants _ _ Hreach) as [[_ [Hrange _]] _].
  destruct (step_cases i st)
    as [[Hids _]|[[seeded [-> _]]|[-> |[-> | ->]]]].
  - now rewrite Hids.
  - rewrite atoms_addAtom, map_app. cbn [map id].
    apply increasing_snoc; auto. intros j Hj. apply Hrange in Hj. lia.
  - unfold removeSelected. cbn [set_links set_atoms atoms].
    now apply increasing_filter.
  - constructor.
  - now rewrite atoms_linkPair.
Qed.

Lemma reachable_element_index g0 st :
  reachable g0 st -> 0 <= selectedElement st < 10.
Proof.
  induction 1 as [|st i Hreach IH Hdef]; [simpl; lia|].
  destruct (step_selectedElement i st) as [-> |[-> | ->]]; auto.
  - cbn. change (size ELEMENTS_atomicNumber) with 10.
    rewrite Z.rem_mod_nonneg by lia.
    pose proof (Z.mod_pos_bound (selectedElement st - 1 + 10) 10). lia.
  - cbn. change (size ELEMENTS_atomicNumber) with 10.
    rewrite Z.rem_mod_nonneg by lia.
    pose proof (Z.mod_pos_bound (selectedElement st + 1) 10). lia.
Qed.

Lemma reachable_drag g0 st :
  reachable g0 st ->
  (dragging st = false /\ draggingId st = -1)
  \/ (dragging st = true /\ 1 <= draggingId st < nextId st).
Proof.
  induction 1 as [|st i Hreach IH Hdef]; [left; auto|].
  destruct (reachable_invariants _ _ Hreach) as [[_ [Hrange _]] _].
  pose proof (nextId_step i st Hdef) as Hn.
  destruct (step_drag i st) as [[-> ->]|[[-> ->]|[-> Hin]]].
  - destruct IH as [?|[? ?]]; [now left|right; split; auto; lia].
  - now left.
  - right. split; auto. apply Hrange in Hin. lia.
Qed.

Lemma reachable_links_strict g0 st :
  reachable g0 st -> forall L, In L (links st) -> aId L < bId L.
Proof.
  induction 1 as [|st i Hreach IH Hdef]; [intros L []|].
  destruct (reachable_invariants _ _ Hreach) as [[_ [_ Hnd]] _].
  destruct (step_cases i st)
    as [[_ [Hl _]]|[[seeded [-> _]]|[-> |[-> | ->]]]].
  - now rewrite Hl.
  - now rewrite links_addAtom.
  - intros L HL. unfold removeSelected in HL. cbn in HL.
    apply filter_In in HL. apply IH. tauto.
  - intros L [].
  - pose proof (linkPair_spec st) as H.
    pose proof (NoDup_map_filter id selected _ Hnd) as Hsel.
    fold (selectedIds (atoms st)) in Hsel.
    destruct (selectedIds (atoms st)) as [|x [|y [|w sel]]];
      rewrite H; auto.
    destruct (existsb _ _); auto.
    intros L HL. cbn in HL. apply in_app_or in HL.
    destruct HL as [HL|[<-|[]]]; auto. cbn.
    assert (x <> y).
    { inversion Hsel as [|? ? Hx _]; subst. intros ->. apply Hx. now left. }
    lia.
Qed.

End Scalars.

(** X1.  The element cursor never leaves the catalogue, so
    [ELEMENTS[selectedElement]] is always a valid access; "Element >" and
    "< Element" undo each other, and ten clicks on either come back to the
    same element. *)
Theorem element_cursor_stays_in_catalog (g0 : Rand) (st : State) :
  reachable g0 st ->
  0 <= selectedElement st < size ELEMENTS_atomicNumber
  /\ selectedElement (prevElement (nextElement st)) = selectedElement st
  /\ selectedElement (nextElement (prevElement st)) = selectedElement st
  /\ selectedElement (Nat.iter 10 nextElement st) = selectedElement st
  /\ selectedElement (Nat.iter 10 prevElement st) = selectedElement st.
Proof.
  intros Hreach. pose proof (reachable_element_index _ _ Hreach) as Hx.
  change (size ELEMENTS_atomicNumber) with 10.
  split; [exact Hx|].
  cbn. change (size ELEMENTS_atomicNumber) with 10.
  assert (Hcases : selectedElement st = 0 \/ selectedElement st = 1 \/
                   selectedElement st = 2 \/ selectedElement st = 3 \/
                   selectedElement st = 4 \/ selectedElement st = 5 \/
                   selectedElement st = 6 \/ selectedElement st = 7 \/
                   selectedElement st = 8 \/ selectedElement st = 9) by lia.
  repeat destruct Hcases as [Hc|Hcases]; try rewrite Hc; try rewrite Hcases;
    repeat split; reflexivity.
Qed.

Lemma element_cursor_stays_in_catalog_witness :
  let st := run [click_button BtnPrevElement 36 (F32.of_Z 1)]
                (init test_rand) in
  selectedElement st = 9
  /\ 0 <= selectedElement st < size ELEMENTS_atomicNumber
  /\ selectedElement (nextElement st) = 0.
Proof.
  cbv zeta.
  assert (Hr : reachable test_rand
                 (run [click_button BtnPrevElement 36 (F32.of_Z 1)]
                      (init test_rand))).
  { apply reachable_from_init. vm_compute. repeat split. }
  destruct (element_cursor_stays_in_catalog _ _ Hr) as [Hrange _].
  split; [reflexivity|]. split; [exact Hrange|reflexivity].
Defined.

(** X2.  Identifiers are handed out in increasing order and never reused:
    in store order they grow strictly, all lie between 1 and [nextId], no
    step whose result is defined (an "Add Atom" only while
    [nextId < INT_MAX]) lowers [nextId], not even "Clear All", and every
    atom present after such a step was there before or carries the old
    [nextId]. *)
Theorem ids_increase_and_are_never_reused (g0 : Rand) (st : State) :
  reachable g0 st ->
  increasing (map id (atoms st))
  /\ (forall a, In a (atoms st) -> 1 <= id a < nextId st)
  /\ forall i,
       defined i st ->
       nextId st <= nextId (step i st) /\
       forall b, In b (atoms (step i st)) ->
                 In (id b) (map id (atoms st)) \/ id b = nextId st.
Proof.
  intros Hreach.
  destruct (reachable_invariants _ _ Hreach) as [[_ [Hrange _]] _].
  split; [now apply (reachable_increasing g0)|]. split.
  - intros a Ha. apply Hrange. now apply in_map.
  - intros i Hdef. split; [now apply nextId_step|].
    intros b Hb. apply (in_map id) in Hb.
    destruct (step_cases i st)
      as [[Hids _]|[[seeded [E _]]|[E |[E | E]]]].
    + left. now rewrite <- Hids.
    + rewrite E, atoms_addAtom, map_app in Hb. apply in_app_or in Hb.
      destruct Hb as [Hb|[Hb|[]]]; auto.
    + rewrite E in Hb. unfold removeSelected in Hb. cbn in Hb.
      left. apply in_map_iff in Hb. destruct Hb as [c [<- Hc]].
      apply filter_In in Hc. apply in_map. tauto.
    + rewrite E in Hb. destruct Hb.
    + left. now rewrite E, atoms_linkPair in Hb.
Qed.

Lemma ids_increase_and_are_never_reused_witness :
  let st := run two_selected (init test_rand) in
  map id (atoms st) = [1; 2]
  /\ increasing (map id (atoms st))
  /\ nextId (step (click_button BtnClearAll 284 (F32.of_Z 5)) st) = 3.
Proof.
  cbv zeta.
  assert (Hr : reachable test_rand (run two_selected (init test_rand))).
  { apply reachable_from_init. vm_compute. repeat split. }
  destruct (ids_increase_and_are_never_reused _ _ Hr) as [Hinc _].
  split; [reflexivity|]. split; [exact Hinc|reflexivity].
Defined.

(** X3.  The two drag variables always agree: either no drag is under way
    and [draggingId] is -1, or one is and [draggingId] is an identifier that
    was handed out; so the test [draggingId != -1] of the move handler never
    decides anything. *)
Theorem drag_variables_agree (g0 : Rand) (st : State) :
  reachable g0 st ->
  ((dragging st = false /\ draggingId st = -1)
   \/ (dragging st = true /\ 1 <= draggingId st < nextId st))
  /\ dragging st && negb (draggingId st =? -1) = dragging st.
Proof.
  intros Hreach. pose proof (reachable_drag _ _ Hreach) as H.
  split; [exact H|].
  destruct H as [[-> ->]|[-> Hid]]; [reflexivity|].
  replace (draggingId st =? -1) with false; auto.
  symmetry. apply Z.eqb_neq. lia.
Qed.

Lemma drag_variables_agree_witness :
  let st := step (MouseButtonPressedLeft 770 195 None false (F32.of_Z 3)
                                         test_rand)
                 (run one_selected (init test_rand)) in
  dragging st = true /\ draggingId st = 1 /\
  dragging st && negb (draggingId st =? -1) = dragging st.
Proof.
  cbv zeta.
  assert (Hr : reachable test_rand
                 (step (MouseButtonPressedLeft 770 195 None false (F32.of_Z 3)
                                               test_rand)
                       (run one_selected (init test_rand)))).
  { apply reach_step; [|exact I].
    apply reachable_from_init. vm_compute. repeat split. }
  destruct (drag_variables_agree _ _ Hr) as [_ H].
  split; [vm_compute; reflexivity|]. split; [vm_compute; reflexivity|exact H].
Defined.

(** X4.  No link joins an atom to itself and no two links join the same two
    atoms, in whichever order: every stored link has [aId < bId], and each
    unordered pair of identifiers occurs at most once. *)
Theorem links_are_strict_and_unique (g0 : Rand) (st : State) :
  reachable g0 st ->
  (forall L, In L (links st) -> aId L < bId L)
  /\ (forall x y, (count_pair x y (links st) <= 1)%nat)
  /\ NoDup (links st).
Proof.
  intros Hreach.
  destruct (reachable_invariants _ _ Hreach) as [_ [[Hcan Huniq] _]].
  split; [now apply (reachable_links_strict g0)|]. split.
  - intros x y. rewrite count_pair_canonical by assumption. apply Huniq.
  - clear Hcan. induction (links st) as [|L l IH]; constructor.
    + intros Hin. specialize (Huniq (aId L) (bId L)).
      unfold count_link in Huniq. simpl in Huniq.
      assert (E : same_link (aId L) (bId L) L = true)
        by (apply same_link_eq; now destruct L).
      rewrite E in Huniq. simpl in Huniq.
      assert (Hpos : (1 <= length (filter (same_link (aId L) (bId L)) l))%nat).
      { apply (count_link_present (aId L) (bId L) l).
        apply existsb_exists. exists L. auto. }
      lia.
    + apply IH. intros a b. specialize (Huniq a b).
      unfold count_link in *. simpl in Huniq.
      destruct (same_link a b L); simpl in Huniq; lia.
Qed.

Lemma links_are_strict_and_unique_witness :
  let st := run linked_one_selected (init test_rand) in
  links st = [mkLink 1 2] /\
  (forall L, In L (links st) -> aId L < bId L) /\
  (count_pair 2 1 (links st) <= 1)%nat.
Proof.
  cbv zeta.
  assert (Hr : reachable test_rand
                 (run linked_one_selected (init test_rand))).
  { apply reachable_from_init. vm_compute. repeat split. }
  destruct (links_are_strict_and_unique _ _ Hr) as [Hs [Hc _]].
  split; [reflexivity|]. split; [exact Hs|exact (Hc 2 1)].
Defined.

(** ** Moves, removals, toggles and schedules *)

Section Edits.

Lemma drag_first_absent d p l :
  ~ In d (map id l) -> drag_first d p l = l.
Proof.
  induction l as [|a l IH]; simpl; auto. intros Hno.
  destruct (id a =? d) eqn:E.
  - apply Z.eqb_eq in E. elim Hno. now left.
  - f_equal. apply IH. intros Hin. apply Hno. now right.
Qed.

Lemma set_atoms_same st : set_atoms (atoms st) st = st.
Proof. now destruct st. Qed.

Lemma removeSelected_unselected st a :
  In a (atoms (removeSelected st)) -> In a (atoms st) /\ selected a = false.
Proof.
  unfold removeSelected. cbn [set_links set_atoms atoms]. intros Hin.
  apply filter_In in Hin. destruct Hin as [Hin Hkeep]. split; auto.
  destruct (selected a) eqn:E; auto.
  apply negb_true_iff in Hkeep.
  assert (mem (id a) (selectedIds (atoms st)) = true)
    by (apply mem_In, selectedIds_In; eauto).
  congruence.
Qed.

Lemma toggle_twice a :
  (fun a => if selected a then set_active (negb (active a)) a else a)
    (if selected a then set_active (negb (active a)) a else a) = a.
Proof.
  destruct a as [i e p r act sel els sch]. cbn.
  destruct sel; cbn; [now rewrite negb_involutive | reflexivity].
Qed.

End Edits.

(** X5.  A pointer move changes nothing unless a drag is under way on an
    atom that is still in the store: not when [dragging] is false, not when
    [draggingId] is -1, and not when the dragged atom has been removed in
    the meantime. *)
Theorem mouse_move_without_dragged_atom (x y : Z) (winSize : Z * Z)
    (st : State) :
  dragging st = false \/ draggingId st = -1 \/
  ~ In (draggingId st) (map id (atoms st)) ->
  mouseMoved x y winSize st = st.
Proof.
  intros H. unfold mouseMoved.
  destruct (dragging st) eqn:D; [|reflexivity].
  destruct (draggingId st =? -1) eqn:E; [reflexivity|]. cbn [andb negb].
  destruct H as [H|[H|H]].
  - discriminate.
  - apply Z.eqb_neq in E. contradiction.
  - rewrite drag_first_absent by assumption. apply set_atoms_same.
Qed.

(** The atom is pressed, hence selected and dragged, and removed while the
    button is still down: the drag goes on, and moving the pointer does
    nothing. *)
Lemma mouse_move_without_dragged_atom_witness :
  let st := run [ MouseButtonPressedLeft 770 195 None false (F32.of_Z 3)
                                         test_rand;
                  click_button BtnRemoveSelected 244 (F32.of_Z 4) ]
                (run one_selected (init test_rand)) in
  dragging st = true /\ draggingId st = 1 /\ atoms st = [] /\
  mouseMoved 800 300 (1200, 800) st = st.
Proof.
  cbv zeta.
  split; [vm_compute; reflexivity|]. split; [vm_compute; reflexivity|].
  split; [vm_compute; reflexivity|].
  apply mouse_move_without_dragged_atom.
  right. right. vm_compute. intros [].
Defined.

(** X6.  After [removeSelected] no atom is selected, whatever the state
    was; every atom left was there, unselected, before; and a second
    [removeSelected] changes nothing. *)
Theorem removeSelected_leaves_none_selected (st : State) :
  selectedIds (atoms (removeSelected st)) = []
  /\ (forall a, In a (atoms (removeSelected st)) ->
                In a (atoms st) /\ selected a = false)
  /\ removeSelected (removeSelected st) = removeSelected st.
Proof.
  assert (Hnone : forall a, In a (atoms (removeSelected st)) ->
                            selected a = false)
    by (intros a Ha; now apply (removeSelected_unselected st)).
  split; [now apply selectedIds_none|]. split.
  - apply removeSelected_unselected.
  - unfold removeSelected at 1.
    rewrite (selectedIds_none _ Hnone).
    rewrite !filter_all by reflexivity. now destruct (removeSelected st).
Qed.

(** X7.  [toggleActiveSelected] is its own inverse, and it flips [active]
    for the selected atoms and for no other. *)
Theorem toggleActiveSelected_involution (st : State) :
  toggleActiveSelected (toggleActiveSelected st) = st
  /\ map active (atoms (toggleActiveSelected st))
     = map (fun a => xorb (selected a) (active a)) (atoms st)
  /\ map frame_kept_fields (atoms (toggleActiveSelected st))
     = map frame_kept_fields (atoms st)
  /\ map scheduledStart (atoms (toggleActiveSelected st))
     = map scheduledStart (atoms st).
Proof.
  unfold toggleActiveSelected. cbn [set_atoms atoms].
  split; [|split; [|split]].
  - rewrite map_map.
    rewrite (map_ext _ (fun a => a)) by (intros a; apply toggle_twice).
    rewrite map_id. now destruct st.
  - rewrite map_map. apply map_ext. intros a.
    destruct (selected a); cbn; [reflexivity | now destruct (active a)].
  - rewrite map_map. apply map_ext. intros a. now destruct (selected a).
  - rewrite map_map. apply map_ext. intros a. now destruct (selected a).
Qed.

(** X8.  Scheduling again overwrites: after two "Schedule +2s" only the
    time of the second counts, also for an atom whose first schedule was
    still pending; atoms that are not selected keep what they had, and
    [active] is not touched. *)
Theorem scheduleSelected_overwrites (t1 t2 : float) (st : State) :
  scheduleSelected t2 (scheduleSelected t1 st) = scheduleSelected t2 st
  /\ map scheduledStart (atoms (scheduleSelected t2 st))
     = map (fun a => if selected a then Some (F32.add t2 (F32.of_Z 2))
                     else scheduledStart a)
           (atoms st)
  /\ map active (atoms (scheduleSelected t2 st)) = map active (atoms st).
Proof.
  unfold scheduleSelected. cbn [set_atoms atoms].
  split; [|split].
  - rewrite map_map. unfold set_atoms. cbn. f_equal.
    apply map_ext. intros a.
    destruct (selected a) eqn:E; cbn; rewrite E; reflexivity.
  - rewrite map_map. apply map_ext. intros a. now destruct (selected a).
  - rewrite map_map. apply map_ext. intros a. now destruct (selected a).
Qed.

(** ** What the frame update keeps *)

Section FrameKeeps.

Lemma map_radius_advance l : map radius (map advance l) = map radius l.
Proof. rewrite map_map. now apply map_ext. Qed.

Lemma map_speed_advance l : map speed (map advance l) = map speed l.
Proof. rewrite map_map. now apply map_ext. Qed.

Lemma frame_kept_update_atom t a :
  frame_kept_fields (update_atom t a) = frame_kept_fields a.
Proof.
  unfold update_atom, integrate, activate_due.
  destruct (fires t a); cbn; [reflexivity|].
  destruct (active a); reflexivity.
Qed.

Lemma orbit_update_atom t a : orbit_fields (update_atom t a) = orbit_fields a.
Proof.
  unfold update_atom, integrate, activate_due, orbit_fields.
  destruct (fires t a); cbn.
  - now rewrite map_radius_advance, map_speed_advance.
  - destruct (active a); cbn; auto.
    now rewrite map_radius_advance, map_speed_advance.
Qed.

Lemma update_atom_idle t a :
  active a = false -> fires t a = false -> update_atom t a = a.
Proof.
  intros A F. unfold update_atom, integrate, activate_due.
  now rewrite F, A.
Qed.

Lemma update_atom_running t a :
  active a = true -> scheduledStart a = None ->
  update_atom t a = set_electrons (map advance (electrons a)) a.
Proof.
  intros A S. unfold update_atom, integrate, activate_due, fires.
  now rewrite S, A.
Qed.

Lemma advance_n_succ n e : advance_n n (advance e) = advance_n (S n) e.
Proof. unfold advance_n. symmetry. apply Nat.iter_succ_r. Qed.

Lemma In_same_field {B} (f : Atom -> B) l' :
  forall l, map f l' = map f l ->
            forall b, In b l' -> exists a, In a l /\ f a = f b.
Proof.
  induction l' as [|c l' IH]; intros [|d l] E b Hb;
    try contradiction; try discriminate.
  simpl in E.
  assert (Ec : f c = f d) by congruence.
  assert (El : map f l' = map f l) by congruence.
  destruct Hb as [<-|Hb].
  - exists d. split; [now left|congruence].
  - destruct (IH l El b Hb) as [a [Ha Hf]]. exists a. split; [now right|auto].
Qed.

(** A field that neither the field setters of the handlers nor the frame
    update change is kept by every step, atom for atom, unless the step is
    one of the three commands that add or remove atoms. *)
Lemma step_field {B} (f : Atom -> B) i st :
  (forall p a, f (set_pos p a) = f a) ->
  (forall b a, f (set_selected b a) = f a) ->
  (forall b a, f (set_active b a) = f a) ->
  (forall o a, f (set_scheduledStart o a) = f a) ->
  (forall t a, f (update_atom t a) = f a) ->
  map f (atoms (step i st)) = map f (atoms st)
  \/ (exists seeded, is_add_click i = true /\ step i st = addAtom seeded st)
  \/ step i st = removeSelected st
  \/ step i st = clearAll st.
Proof.
  intros Hpos Hsel Hact Hsch Hupd.
  destruct i as [x y w|x y over ctrl now seeded| |t]; cbn [step].
  - left. unfold mouseMoved. destruct (_ && _); auto.
    cbn [set_atoms atoms]. apply map_field_drag_first. intros a. apply Hpos.
  - unfold mousePressedLeft. destruct over as [b|].
    + destruct b; cbn [onClick].
      * now left.
      * now left.
      * right. left. exists seeded. auto.
      * left. unfold toggleActiveSelected. cbn [set_atoms atoms].
        rewrite map_map. apply map_ext. intros a.
        destruct (selected a); auto.
      * left. unfold scheduleSelected. cbn [set_atoms atoms].
        rewrite map_map. apply map_ext. intros a.
        destruct (selected a); auto.
      * left. now rewrite atoms_linkPair.
      * auto.
      * auto.
    + left. destruct (F32.ltb _ _).
      * cbn [set_atoms atoms]. apply map_field_list_click. exact Hsel.
      * apply map_field_canvas_click. exact Hsel.
  - now left.
  - left. cbn [frame set_atoms atoms]. rewrite map_map.
    apply map_ext. intros a. apply Hupd.
Qed.

End FrameKeeps.

(** X9.  The time update touches nothing but activation, schedules and
    angles: identifiers, elements, positions, nucleus radii and selection
    flags of all atoms, the radius and the speed of every electron, the
    links and every other variable are as before; it never deactivates an
    atom and never sets a schedule. *)
Theorem frame_keeps_everything_else (t : float) (st : State) :
  map frame_kept_fields (atoms (frame t st)) = map frame_kept_fields (atoms st)
  /\ map orbit_fields (atoms (frame t st)) = map orbit_fields (atoms st)
  /\ links (frame t st) = links st
  /\ nextId (frame t st) = nextId st
  /\ selectedElement (frame t st) = selectedElement st
  /\ dragging (frame t st) = dragging st
  /\ draggingId (frame t st) = draggingId st
  /\ dragOffset (frame t st) = dragOffset st
  /\ (forall a, active a = true -> active (update_atom t a) = true)
  /\ (forall a, scheduledStart (update_atom t a) = None \/
                scheduledStart (update_atom t a) = scheduledStart a).
Proof.
  cbn [frame set_atoms atoms links nextId selectedElement dragging
       draggingId dragOffset].
  split; [|split].
  - rewrite map_map. apply map_ext. intros a. apply frame_kept_update_atom.
  - rewrite map_map. apply map_ext. intros a. apply orbit_update_atom.
  - repeat split; auto.
    + intros a A. unfold update_atom, integrate, activate_due.
      destruct (fires t a); cbn; [reflexivity|]. now rewrite A.
    + intros a. destruct (fires t a) eqn:F.
      * left. now apply fires_clears.
      * right. now apply update_atom_not_due.
Qed.

(** X10.  A time update in which no atom is active and no schedule is due
    returns the state it was given. *)
Theorem frame_is_identity_when_idle (t : float) (st : State) :
  (forall a, In a (atoms st) -> active a = false /\ fires t a = false) ->
  frame t st = st.
Proof.
  intros H. unfold frame.
  rewrite (map_ext_in _ (fun a => a)).
  - rewrite map_id. apply set_atoms_same.
  - intros a Ha. destruct (H a Ha). now apply update_atom_idle.
Qed.

(** Scheduled at 5.0 for 7.0: the frame at 6.9 changes nothing. *)
Lemma frame_is_identity_when_idle_witness :
  frame (F32.lit 69 10) (run scheduled_at_5 (init test_rand))
  = run scheduled_at_5 (init test_rand).
Proof.
  apply frame_is_identity_when_idle.
  intros a Ha. vm_compute in Ha. destruct Ha as [<-|[]].
  vm_compute. split; reflexivity.
Defined.

(** X11.  For an active atom without a pending schedule the time of the
    frame plays no role: each update adds [speed / 60] to every angle
    whatever the clock says, so after [n] updates every electron was
    advanced [n] times, and the atom is still active. *)
Theorem running_atom_ignores_the_clock (ts : list float) (a : Atom) :
  active a = true ->
  scheduledStart a = None ->
  electrons (updates ts a) = map (advance_n (length ts)) (electrons a)
  /\ active (updates ts a) = true
  /\ scheduledStart (updates ts a) = None
  /\ forall t1 t2, update_atom t1 a = update_atom t2 a.
Proof.
  intros A S. split; [|split; [|split]].
  - revert a A S. induction ts as [|t ts IH]; intros a A S.
    + cbn. symmetry. rewrite <- (map_id (electrons a)) at 2.
      apply map_ext. reflexivity.
    + change (updates (t :: ts) a) with (updates ts (update_atom t a)).
      rewrite (update_atom_running t a A S).
      rewrite IH by (cbn; assumption). cbn [electrons set_electrons length].
      rewrite map_map. apply map_ext. intros e. apply advance_n_succ.
  - revert a A S. induction ts as [|t ts IH]; intros a A S; auto.
    change (updates (t :: ts) a) with (updates ts (update_atom t a)).
    rewrite (update_atom_running t a A S). now apply IH.
  - revert a A S. induction ts as [|t ts IH]; intros a A S; auto.
    change (updates (t :: ts) a) with (updates ts (update_atom t a)).
    rewrite (update_atom_running t a A S). now apply IH.
  - intros t1 t2. now rewrite !update_atom_running.
Qed.

Lemma running_atom_ignores_the_clock_witness :
  let a := set_active true atom_at_400_300 in
  electrons (updates [F32.of_Z 1; F32.of_Z 100; F32.of_Z 3] a)
  = map (advance_n 3) (electrons a)
  /\ update_atom (F32.of_Z 1) a = update_atom (F32.of_Z 100) a.
Proof.
  cbv zeta.
  destruct (running_atom_ignores_the_clock
              [F32.of_Z 1; F32.of_Z 100; F32.of_Z 3]
              (set_active true atom_at_400_300) eq_refl eq_refl)
    as [H1 [_ [_ H2]]].
  split; [exact H1|exact (H2 (F32.of_Z 1) (F32.of_Z 100))].
Defined.

(** X12.  Electrons are made once: whatever the input, an atom present
    after the step either is the atom that "Add Atom" just made, or has the
    electrons it had before, same number, same radii, same speeds; only
    angles ever change. *)
Theorem radii_and_speeds_never_change (i : Input) (st : State) (b : Atom) :
  In b (atoms (step i st)) ->
  (exists a, In a (atoms st) /\ orbit_fields a = orbit_fields b /\
             length (electrons a) = length (electrons b))
  \/ (is_add_click i = true /\ id b = nextId st).
Proof.
  intros Hb.
  assert (Hlen : forall a, orbit_fields a = orbit_fields b ->
                           length (electrons a) = length (electrons b)).
  { intros a E. unfold orbit_fields in E.
    assert (E' : map radius (electrons a) = map radius (electrons b))
      by congruence.
    apply (f_equal (@length _)) in E'. now rewrite !length_map in E'. }
  destruct (step_field orbit_fields i st)
    as [E|[[seeded [Hadd E]]|[E|E]]];
    try reflexivity; try (intros; apply orbit_update_atom).
  - left. destruct (In_same_field _ _ _ E b Hb) as [a [Ha Hf]]. eauto.
  - rewrite E, atoms_addAtom in Hb. apply in_app_or in Hb.
    destruct Hb as [Hb|[<-|[]]]; [left; eauto|right; auto].
  - left. rewrite E in Hb. unfold removeSelected in Hb. cbn in Hb.
    apply filter_In in Hb. destruct Hb. eauto.
  - rewrite E in Hb. destruct Hb.
Qed.

Lemma radii_and_speeds_never_change_witness :
  let st := run scheduled_at_5 (init test_rand) in
  let b := hd dummy_atom (atoms (step (Frame (F32.lit 71 10)) st)) in
  electrons b <> electrons (hd dummy_atom (atoms st))
  /\ exists a, In a (atoms st) /\ orbit_fields a = orbit_fields b /\
               length (electrons a) = length (electrons b).
Proof.
  cbv zeta. split; [vm_compute; discriminate|].
  assert (Hb : In (hd dummy_atom
                      (atoms (step (Frame (F32.lit 71 10))
                                   (run scheduled_at_5 (init test_rand)))))
                  (atoms (step (Frame (F32.lit 71 10))
                               (run scheduled_at_5 (init test_rand)))))
    by (vm_compute; left; reflexivity).
  destruct (radii_and_speeds_never_change _ _ _ Hb) as [H|[H _]].
  - exact H.
  - discriminate H.
Defined.

(** ** Picking and selecting *)

Section Picking.

Lemma hit_loop_none m l h0 :
  (forall b, In b l -> within_reach m b = false) ->
  fold_left (fun hitId a => if within_reach m a then id a else hitId) l h0 = h0.
Proof.
  revert h0. induction l as [|c l IH]; intros h0 H; simpl; auto.
  rewrite (H c) by (now left). apply IH. intros b Hb. apply H. now right.
Qed.

Lemma selectedIds_exclusive h l :
  selectedIds (map (fun a => set_selected (id a =? h) a) l)
  = map id (filter (fun a => id a =? h) l).
Proof.
  unfold selectedIds. induction l as [|a l IH]; simpl; auto.
  destruct (id a =? h); simpl; now rewrite IH.
Qed.

Lemma filter_id_unique h l :
  NoDup (map id l) -> In h (map id l) ->
  map id (filter (fun a => id a =? h) l) = [h].
Proof.
  induction l as [|a l IH]; simpl; [contradiction|].
  intros Hnd Hin. inversion Hnd as [|? ? Hnot Hnd']; subst.
  destruct (id a =? h) eqn:E.
  - apply Z.eqb_eq in E. simpl. rewrite E. f_equal.
    assert (Hno : forall b, In b l -> (id b =? h) = false).
    { intros b Hb. apply Z.eqb_neq. intros Hbh. apply Hnot.
      rewrite E, <- Hbh. now apply in_map. }
    clear -Hno. induction l as [|b l IH]; simpl; auto.
    rewrite (Hno b) by (now left). apply IH. intros c Hc. apply Hno. now right.
  - apply IH; auto. destruct Hin as [Hin|Hin]; auto.
    apply Z.eqb_neq in E. contradiction.
Qed.

Lemma atoms_canvas_click_hit m ctrl st :
  hit_test m (atoms st) <> -1 ->
  atoms (canvas_click m ctrl st)
  = map (fun a =>
           if ctrl
           then (if id a =? hit_test m (atoms st)
                 then set_selected (negb (selected a)) a else a)
           else set_selected (id a =? hit_test m (atoms st)) a)
        (atoms st).
Proof.
  intros Hne. unfold canvas_click. cbv zeta.
  replace (hit_test m (atoms st) =? -1) with false
    by (symmetry; now apply Z.eqb_neq).
  cbn [negb]. destruct ctrl; destruct (find _ _); reflexivity.
Qed.

Lemma list_row_length m :
  forall l l' yy k,
    length l = length l' -> list_row m yy l k = list_row m yy l' k.
Proof.
  induction l as [|a l IH]; intros [|b l'] yy k E; try discriminate; auto.
  simpl. destruct (Vec.contains _ _ _ _ _); auto.
Qed.

Lemma list_row_bound m :
  forall l yy k j, list_row m yy l k = Some j -> (k <= j < k + length l)%nat.
Proof.
  induction l as [|a l IH]; intros yy k j; simpl; [discriminate|].
  destruct (Vec.contains _ _ _ _ _).
  - intros [= <-]. lia.
  - intros H. apply IH in H. lia.
Qed.

Lemma length_apply_at {A} (f : A -> A) k :
  forall l, length (apply_at f k l) = length l.
Proof. induction k as [|k IH]; intros [|a l]; simpl; auto. Qed.

Lemma apply_at_twice {A} (f : A -> A) k :
  (forall a, f (f a) = a) ->
  forall l, apply_at f k (apply_at f k l) = l.
Proof.
  intros Hf. induction k as [|k IH]; intros [|a l]; simpl; auto;
    congruence.
Qed.

Lemma selected_apply_at_exclusive k :
  forall l j,
    (k < length l)%nat ->
    map selected (apply_at (set_selected true) k (map (set_selected false) l))
    = map (Nat.eqb (j + k)) (seq j (length l)).
Proof.
  induction k as [|k IH]; intros [|a l] j Hk; simpl in *; try lia.
  - rewrite Nat.add_0_r, Nat.eqb_refl. f_equal.
    rewrite !map_map. cbn [selected set_selected].
    clear. generalize (S j) (Nat.lt_succ_diag_r j).
    induction l as [|b l IH]; intros i Hi; simpl; auto.
    replace (j =? i)%nat with false by (symmetry; apply Nat.eqb_neq; lia).
    f_equal. apply IH. lia.
  - replace (j + S k =? j)%nat with false
      by (symmetry; apply Nat.eqb_neq; lia).
    f_equal. replace (j + S k)%nat with (S j + k)%nat by lia.
    apply IH. lia.
Qed.

Lemma clamp_idempotent v lo hi :
  F32.leb lo hi = true ->
  F32.clamp (F32.clamp v lo hi) lo hi = F32.clamp v lo hi.
Proof.
  intros Hle. rewrite !clamp_in_order by assumption.
  destruct (F32.ltb v lo) eqn:E1.
  - now rewrite ltb_irrefl, (leb_ltb_false _ _ Hle).
  - destruct (F32.ltb hi v) eqn:E2.
    + now rewrite (leb_ltb_false _ _ Hle), ltb_irrefl.
    + now rewrite E1, E2.
Qed.

End Picking.

(** X13.  When several atoms are within reach of the pointer, the hit loop
    reports the one that comes last in the store (the one drawn on top);
    atoms before it do not matter. *)
Theorem hit_test_last_within_reach_wins (m : Vector2f) (l1 l2 : list Atom)
    (a : Atom) :
  within_reach m a = true ->
  (forall b, In b l2 -> within_reach m b = false) ->
  hit_test m (l1 ++ a :: l2) = id a.
Proof.
  intros Ha Hl2. unfold hit_test. rewrite fold_left_app. cbn [fold_left].
  rewrite Ha. now apply hit_loop_none.
Qed.

(** Two atoms on the same spot: the press picks the second. *)
Lemma hit_test_last_within_reach_wins_witness :
  hit_test (mkVec (F32.of_Z 405) (F32.of_Z 305))
           [atom_at_400_300;
            mkAtom 2 0 (pos atom_at_400_300) (F32.of_Z 16) false false [] None]
  = 2.
Proof.
  apply (hit_test_last_within_reach_wins
           (mkVec (F32.of_Z 405) (F32.of_Z 305)) [atom_at_400_300] []
           (mkAtom 2 0 (pos atom_at_400_300) (F32.of_Z 16) false false []
                   None)).
  - vm_compute. reflexivity.
  - intros b [].
Defined.

(** X14.  A left press on the canvas with no atom within reach clears the
    selection and does nothing else: no drag starts, no atom moves, and
    the Control key makes no difference. *)
Theorem empty_canvas_click_clears_selection (x y : Z) (ctrl : bool)
    (now : float) (seeded : Rand) (st : State) :
  F32.ltb (F32.of_Z x) SIDEBAR_W = false ->
  (forall b, In b (atoms st) ->
             within_reach (mkVec (F32.of_Z x) (F32.of_Z y)) b = false) ->
  let st' := mousePressedLeft x y None ctrl now seeded st in
  st' = set_atoms (map (set_selected false) (atoms st)) st
  /\ selectedIds (atoms st') = []
  /\ dragging st' = dragging st
  /\ draggingId st' = draggingId st
  /\ map pos (atoms st') = map pos (atoms st).
Proof.
  intros Hcanvas Hnone st'.
  assert (E : st' = set_atoms (map (set_selected false) (atoms st)) st).
  { subst st'. unfold mousePressedLeft. cbn [vx]. rewrite Hcanvas.
    unfold canvas_click, hit_test. cbv zeta.
    rewrite hit_loop_none by assumption. reflexivity. }
  rewrite E. cbn [set_atoms atoms dragging draggingId].
  split; [reflexivity|]. split; [|split; [|split]]; auto.
  - apply selectedIds_none. intros a Ha. apply in_map_iff in Ha.
    destruct Ha as [b [<- _]]. reflexivity.
  - rewrite map_map. now apply map_ext.
Qed.

Lemma empty_canvas_click_clears_selection_witness :
  let st := run one_selected (init test_rand) in
  selectedIds (atoms st) = [1] /\
  selectedIds (atoms (mousePressedLeft 900 600 None true (F32.of_Z 3)
                                       test_rand st)) = [].
Proof.
  cbv zeta. split; [vm_compute; reflexivity|].
  refine (proj1 (proj2 (empty_canvas_click_clears_selection
                          900 600 true (F32.of_Z 3) test_rand
                          (run one_selected (init test_rand)) _ _))).
  - vm_compute. reflexivity.
  - intros b Hb. vm_compute in Hb. destruct Hb as [<-|[]].
    vm_compute. reflexivity.
Defined.

(** X15.  A canvas press that hits an atom selects by identifier: without
    Control the hit atom becomes the only selected atom; with Control the
    flag of the hit atom flips and every other atom keeps its flag. *)
Theorem canvas_hit_selects (g0 : Rand) (st : State) (x y : Z)
    (now : float) (seeded : Rand) (a0 : Atom) :
  reachable g0 st ->
  F32.ltb (F32.of_Z x) SIDEBAR_W = false ->
  In a0 (atoms st) ->
  within_reach (mkVec (F32.of_Z x) (F32.of_Z y)) a0 = true ->
  let h := hit_test (mkVec (F32.of_Z x) (F32.of_Z y)) (atoms st) in
  selectedIds (atoms (mousePressedLeft x y None false now seeded st)) = [h]
  /\ map selected (atoms (mousePressedLeft x y None true now seeded st))
     = map (fun a => xorb (id a =? h) (selected a)) (atoms st)
  /\ forall ctrl,
       map pos (atoms (mousePressedLeft x y None ctrl now seeded st))
       = map pos (atoms st).
Proof.
  intros Hreach Hcanvas Hin Hwithin h.
  destruct (reachable_invariants _ _ Hreach) as [[_ [Hrange Hnd]] _].
  destruct (hit_test_hits _ (atoms st) a0 Hin Hwithin) as [b [Hb [_ Hhit]]].
  fold h in Hhit.
  assert (Hh : In h (map id (atoms st))) by (rewrite Hhit; now apply in_map).
  assert (Hne : h <> -1) by (apply Hrange in Hh; lia).
  unfold mousePressedLeft. cbn [vx]. rewrite Hcanvas.
  split; [|split].
  - rewrite atoms_canvas_click_hit by assumption. fold h.
    rewrite selectedIds_exclusive. now apply filter_id_unique.
  - rewrite atoms_canvas_click_hit by assumption. fold h.
    rewrite map_map. apply map_ext. intros a.
    destruct (id a =? h); cbn; [reflexivity | now destruct (selected a)].
  - intros ctrl. apply map_field_canvas_click. reflexivity.
Qed.

Lemma canvas_hit_selects_witness :
  let st := run two_selected (init test_rand) in
  selectedIds (atoms st) = [1; 2] /\
  selectedIds (atoms (mousePressedLeft 770 195 None false (F32.of_Z 5)
                                       test_rand st)) = [1].
Proof.
  cbv zeta. split; [vm_compute; reflexivity|].
  assert (Hr : reachable test_rand (run two_selected (init test_rand))).
  { apply reachable_from_init. vm_compute. repeat split. }
  assert (Hcanvas : F32.ltb (F32.of_Z 770) SIDEBAR_W = false)
    by (vm_compute; reflexivity).
  assert (Hin : In (hd dummy_atom (atoms (run two_selected (init test_rand))))
                   (atoms (run two_selected (init test_rand))))
    by (vm_compute; left; reflexivity).
  assert (Hwithin : within_reach
                      (mkVec (F32.of_Z 770) (F32.of_Z 195))
                      (hd dummy_atom
                          (atoms (run two_selected (init test_rand))))
                    = true)
    by (vm_compute; reflexivity).
  destruct (canvas_hit_selects test_rand _ 770 195 (F32.of_Z 5) test_rand _
              Hr Hcanvas Hin Hwithin) as [H _].
  rewrite H. vm_compute. reflexivity.
Defined.

(** X16.  Clicks in the atom list.  A Control-click on a row is undone by a
    second one; a plain click on row [k] leaves row [k] selected and no
    other, and repeating it changes nothing; a click that is on no row
    changes nothing at all. *)
Theorem list_click_selection (m : Vector2f) (l : list Atom) :
  list_click m true (list_click m true l) = l
  /\ list_click m false (list_click m false l) = list_click m false l
  /\ (list_row m yList l O = None -> forall ctrl, list_click m ctrl l = l)
  /\ (forall k, list_row m yList l O = Some k ->
        (k < length l)%nat /\
        map selected (list_click m false l)
        = map (Nat.eqb k) (seq 0 (length l))).
Proof.
  assert (Hlen : forall ctrl, length (list_click m ctrl l) = length l).
  { intros ctrl. unfold list_click. destruct (list_row m yList l 0); auto.
    destruct ctrl; rewrite length_apply_at; auto. apply length_map. }
  split; [|split; [|split]].
  - unfold list_click at 1.
    rewrite (list_row_length m _ l yList O (Hlen true)).
    unfold list_click. destruct (list_row m yList l 0) as [k|]; auto.
    apply apply_at_twice. intros a. destruct a as [i e p r act sel els sch].
    cbn. now rewrite negb_involutive.
  - unfold list_click at 1.
    rewrite (list_row_length m _ l yList O (Hlen false)).
    unfold list_click. destruct (list_row m yList l 0) as [k|] eqn:E; auto.
    apply list_row_bound in E. simpl in E.
    assert (Hk : (k < length l)%nat) by lia. clear E Hlen.
    revert l Hk. induction k as [|k IH]; intros [|a l] Hk; simpl in *;
      try lia.
    + f_equal. rewrite !map_map. apply map_ext. reflexivity.
    + f_equal. apply IH. lia.
  - intros E ctrl. unfold list_click. now rewrite E.
  - intros k E. pose proof (list_row_bound m l yList O k E) as Hk.
    simpl in Hk. split; [lia|].
    unfold list_click. rewrite E.
    apply (selected_apply_at_exclusive k l O). lia.
Qed.

(** Row 1 of two: a plain click selects the second atom only. *)
Lemma list_click_selection_witness :
  let l := atoms (run two_selected (init test_rand)) in
  let m := mkVec (F32.of_Z 20) (F32.of_Z 370) in
  list_row m yList l O = Some 1%nat /\
  map selected (list_click m false l) = [false; true].
Proof.
  cbv zeta.
  assert (E : list_row (mkVec (F32.of_Z 20) (F32.of_Z 370)) yList
                       (atoms (run two_selected (init test_rand))) O
              = Some 1%nat) by (vm_compute; reflexivity).
  split; [exact E|].
  destruct (list_click_selection
              (mkVec (F32.of_Z 20) (F32.of_Z 370))
              (atoms (run two_selected (init test_rand))))
    as [_ [_ [_ H]]].
  destruct (H 1%nat E) as [_ Hsel]. rewrite Hsel. vm_compute. reflexivity.
Defined.

(** X17.  Clamping is idempotent: in a window whose canvas rectangle is
    not empty, a position that [clampToCanvas] produced is left alone by
    [clampToCanvas], so a dragged atom that hit the border stays where the
    border is. *)
Theorem clampToCanvas_idempotent (p : Vector2f) (winSize : Z * Z) :
  F32.leb (F32.add SIDEBAR_W (F32.of_Z 20))
          (F32.sub (F32.of_Z (fst winSize)) (F32.of_Z 20)) = true ->
  F32.leb (F32.of_Z 20)
          (F32.sub (F32.of_Z (snd winSize)) (F32.of_Z 20)) = true ->
  clampToCanvas (clampToCanvas p winSize) winSize = clampToCanvas p winSize.
Proof.
  intros Hx Hy. unfold clampToCanvas. cbn [vx vy].
  now rewrite !clamp_idempotent.
Qed.

Lemma clampToCanvas_idempotent_witness :
  clampToCanvas (mkVec (F32.of_Z 0) (F32.of_Z 5000)) (1200, 800)
  = mkVec (F32.of_Z 340) (F32.of_Z 780)
  /\ clampToCanvas (clampToCanvas (mkVec (F32.of_Z 0) (F32.of_Z 5000))
                                  (1200, 800)) (1200, 800)
     = clampToCanvas (mkVec (F32.of_Z 0) (F32.of_Z 5000)) (1200, 800).
Proof.
  split; [vm_compute; reflexivity|].
  apply clampToCanvas_idempotent; vm_compute; reflexivity.
Defined.

(** ** New atoms *)

Section Spawn.

Lemma same_float_eq x y : same_float x y = true -> x = y.
Proof.
  destruct x as [a|a| |a m e], y as [b|b| |b m' e']; simpl;
    try discriminate; auto.
  - intros H. apply Bool.eqb_prop in H. now subst.
  - intros H. apply Bool.eqb_prop in H. now subst.
  - intros H. apply andb_true_iff in H. destruct H as [H He].
    apply andb_true_iff in H. destruct H as [Hs Hm].
    apply Bool.eqb_prop in Hs. apply Pos.eqb_eq in Hm. apply Z.eqb_eq in He.
    now subst.
Qed.

Lemma checked_below (check : Z -> bool) (n : nat) :
  forallb check (map Z.of_nat (seq 0 n)) = true ->
  forall d, 0 <= d < Z.of_nat n -> check d = true.
Proof.
  intros H d Hd. rewrite forallb_forall in H. apply H.
  apply in_map_iff. exists (Z.to_nat d). split; [lia|].
  apply in_seq. lia.
Qed.

Lemma spawn_x_all : forallb spawn_x_ok (map Z.of_nat (seq 0 600)) = true.
Proof. vm_compute. reflexivity. Qed.

Lemma spawn_y_all : forallb spawn_y_ok (map Z.of_nat (seq 0 500)) = true.
Proof. vm_compute. reflexivity. Qed.

Lemma spawn_x_rem r : spawn_x (Z.rem r 600) = spawn_x r.
Proof. unfold spawn_x. now rewrite Z.rem_rem by lia. Qed.

Lemma spawn_y_rem r : spawn_y (Z.rem r 500) = spawn_y r.
Proof. unfold spawn_y. now rewrite Z.rem_rem by lia. Qed.

Lemma catalogue_electron_count k seeded :
  0 <= k < 10 ->
  size (makeElectronsForElement (at_ 0 ELEMENTS_atomicNumber k) seeded)
  = at_ 0 ELEMENTS_atomicNumber k.
Proof.
  intros Hk. unfold size.
  rewrite makeElectronsForElement_shape, spec_shells_length.
  assert (Hcases : k = 0 \/ k = 1 \/ k = 2 \/ k = 3 \/ k = 4 \/ k = 5 \/
                   k = 6 \/ k = 7 \/ k = 8 \/ k = 9) by lia.
  repeat destruct Hcases as [-> |Hcases]; try subst k; reflexivity.
Qed.

End Spawn.

(** X18.  "Add Atom" appends one atom and changes no other: the new atom
    carries the identifier [nextId], which no atom of the store has; it is
    inactive, unselected and unscheduled; it has as many electrons as the
    atomic number of the element under the cursor; and it appears at
    [(420 + r1 % 600, 100 + r2 % 500)], a point that lies inside the canvas
    of the initial window.  All of it while the counter has not reached
    [INT_MAX], where [nextId++] would overflow. *)
Theorem addAtom_appends_fresh_idle_atom (g0 seeded : Rand) (st : State) :
  reachable g0 st ->
  nextId st < INT_MAX ->
  0 <= rng st 0%nat ->
  0 <= rng st 1%nat ->
  exists a,
    atoms (addAtom seeded st) = atoms st ++ [a]
    /\ links (addAtom seeded st) = links st
    /\ nextId (addAtom seeded st) = nextId st + 1
    /\ id a = nextId st
    /\ ~ In (id a) (map id (atoms st))
    /\ active a = false /\ selected a = false /\ scheduledStart a = None
    /\ size (electrons a)
       = at_ 0 ELEMENTS_atomicNumber (selectedElement st)
    /\ pos a = mkVec (F32.of_Z (420 + Z.rem (rng st 0%nat) 600))
                     (F32.of_Z (100 + Z.rem (rng st 1%nat) 500))
    /\ clampToCanvas (pos a) (1200, 800) = pos a.
Proof.
  intros Hreach Hmax H1 H2.
  destruct (reachable_invariants _ _ Hreach) as [[_ [Hrange _]] _].
  pose proof (reachable_element_index _ _ Hreach) as Hel.
  assert (Hd1 : 0 <= Z.rem (rng st 0%nat) 600 < Z.of_nat 600)
    by (pose proof (Z.rem_bound_pos (rng st 0%nat) 600); lia).
  assert (Hd2 : 0 <= Z.rem (rng st 1%nat) 500 < Z.of_nat 500)
    by (pose proof (Z.rem_bound_pos (rng st 1%nat) 500); lia).
  pose proof (checked_below _ _ spawn_x_all _ Hd1) as Hx.
  pose proof (checked_below _ _ spawn_y_all _ Hd2) as Hy.
  unfold spawn_x_ok in Hx. unfold spawn_y_ok in Hy.
  apply andb_true_iff in Hx, Hy.
  destruct Hx as [Hx Hcx], Hy as [Hy Hcy].
  apply same_float_eq in Hx, Hy, Hcx, Hcy.
  rewrite spawn_x_rem in Hx, Hcx. rewrite spawn_y_rem in Hy, Hcy.
  eexists. split; [apply atoms_addAtom|].
  split; [apply links_addAtom|]. split; [now apply nextId_addAtom|].
  cbn [id active selected scheduledStart electrons pos].
  split; [reflexivity|]. split.
  { intros Hin. apply Hrange in Hin. lia. }
  do 3 (split; [reflexivity|]).
  split; [now apply catalogue_electron_count|].
  fold (spawn_x (rng st 0%nat)). fold (spawn_y (rng st 1%nat)).
  split.
  - now rewrite Hx, Hy.
  - unfold clampToCanvas in *. cbn [vx vy fst snd] in *.
    now rewrite Hcx, Hcy.
Qed.

Lemma addAtom_appends_fresh_idle_atom_witness :
  exists a,
    atoms (addAtom test_rand (run one_selected (init test_rand)))
    = atoms (run one_selected (init test_rand)) ++ [a]
    /\ id a = 2
    /\ clampToCanvas (pos a) (1200, 800) = pos a.
Proof.
  assert (Hr : reachable test_rand (run one_selected (init test_rand))).
  { apply reachable_from_init. vm_compute. repeat split. }
  assert (Hmax : nextId (run one_selected (init test_rand)) < INT_MAX)
    by (vm_compute; reflexivity).
  assert (H1 : 0 <= rng (run one_selected (init test_rand)) 0%nat)
    by (vm_compute; discriminate).
  assert (H2 : 0 <= rng (run one_selected (init test_rand)) 1%nat)
    by (vm_compute; discriminate).
  destruct (addAtom_appends_fresh_idle_atom test_rand test_rand _ Hr Hmax
              H1 H2)
    as [a [Ha [_ [_ [Hid [_ [_ [_ [_ [_ [_ Hc]]]]]]]]]]].
  exists a. split; [exact Ha|]. split; [|exact Hc].
  rewrite Hid. vm_compute. reflexivity.
Defined.

(** ** More on the generator *)

Section Orbits.

Lemma speed_direction_all :
  forallb (fun s => forallb (speed_direction_ok s)
                            (map Z.of_nat (seq 0 100)))
          (map Z.of_nat (seq 0 4)) = true.
Proof. vm_compute. reflexivity. Qed.

Lemma speed_direction_checked s d :
  0 <= s < 4 -> 0 <= d <= 99 -> speed_direction_ok s d = true.
Proof.
  intros Hs Hd.
  pose proof (checked_below _ 4 speed_direction_all s ltac:(lia)) as H.
  apply (checked_below _ 100 H). lia.
Qed.

Lemma shell_angles_all :
  forallb shell_angles_ok (map Z.of_nat (seq 0 19)) = true.
Proof. vm_compute. reflexivity. Qed.

Lemma shell_electrons_angles s n off g :
  map angle (shell_electrons s n off g) = angles_of_shell n.
Proof.
  unfold shell_electrons, angles_of_shell. rewrite map_map.
  now apply map_ext.
Qed.

Lemma spec_shells_angles occ :
  forall s off g,
    map angle (spec_shells s occ off g) = flat_map angles_of_shell occ.
Proof.
  induction occ as [|n occ IH]; intros s off g; simpl; auto.
  now rewrite map_app, shell_electrons_angles, IH.
Qed.

Lemma occupancy_bound caps :
  (forall c, In c caps -> c <= 18) ->
  forall r n, In n (occupancy caps r) -> 0 <= n <= 18.
Proof.
  induction caps as [|c caps IH]; intros Hc r n; simpl; [contradiction|].
  intros [<-|Hin].
  - specialize (Hc c (or_introl eq_refl)). lia.
  - apply (IH (fun c' H => Hc c' (or_intror H)) _ _ Hin).
Qed.

End Orbits.

(** X19.  The jitter never reverses a shell: whatever the draws, electrons
    of shells 0 and 2 have a positive speed and those of shells 1 and 3 a
    negative one, and every speed has a magnitude between 0.25 and 0.9
    radians per second. *)
Theorem jitter_keeps_the_direction (z : Z) (g : Rand) (j : nat)
    (d : Electron) :
  (forall k, 0 <= g k) ->
  (j < length (makeElectronsForElement z g))%nat ->
  let e := nth j (makeElectronsForElement z g) d in
  exists s,
    0 <= s < 4 /\
    radius e = at_ S754_nan radii s /\
    (if Z.even s then F32.ltb (S754_zero false) (speed e)
     else F32.ltb (speed e) (S754_zero false)) = true /\
    F32.leb (F32.lit 1 4) (SFabs (speed e)) = true /\
    F32.leb (SFabs (speed e)) (F32.lit 9 10) = true.
Proof.
  intros Hg Hj e. subst e. rewrite makeElectronsForElement_shape in *.
  destruct (spec_shells_nth _ _ _ _ _ d Hj) as [s [Hs [Hr Hk]]].
  unfold size in Hs. rewrite occupancy_length in Hs. simpl in Hs.
  exists s. split; [lia|]. split; [exact Hr|].
  pose proof (speed_direction_checked s (Z.rem (g j) 100) ltac:(lia)
                (rem_100_range _ (Hg j))) as Hok.
  unfold speed_direction_ok, speed_of in Hok.
  apply andb_true_iff in Hok. destruct Hok as [Hok Hhi].
  apply andb_true_iff in Hok. destruct Hok as [Hdir Hlo].
  rewrite Hk. unfold jitter. auto.
Qed.

Lemma jitter_keeps_the_direction_witness :
  let e := nth 2 (makeElectronsForElement 3 test_rand)
               (mkElectron S754_nan S754_nan S754_nan) in
  exists s,
    0 <= s < 4 /\
    radius e = at_ S754_nan radii s /\
    (if Z.even s then F32.ltb (S754_zero false) (speed e)
     else F32.ltb (speed e) (S754_zero false)) = true /\
    F32.leb (F32.lit 1 4) (SFabs (speed e)) = true /\
    F32.leb (SFabs (speed e)) (F32.lit 9 10) = true.
Proof.
  assert (Hg : forall k, 0 <= test_rand k) by (intros k; unfold test_rand; lia).
  assert (Hj : (2 < length (makeElectronsForElement 3 test_rand))%nat)
    by (vm_compute; lia).
  exact (jitter_keeps_the_direction 3 test_rand 2
           (mkElectron S754_nan S754_nan S754_nan) Hg Hj).
Defined.

(** X20.  The initial angles do not depend on the random stream: they are
    those of the shells, shell after shell, and in each shell they start at
    zero, rise strictly and stay below [2.f * 3.1415926f]. *)
Theorem initial_angles_are_spread (z : Z) (g : Rand) :
  map angle (makeElectronsForElement z g)
  = flat_map angles_of_shell (occupancy shellCap (Z.min z 24))
  /\ forall n, In n (occupancy shellCap (Z.min z 24)) ->
       strictly_rising (angles_of_shell n) = true /\
       (forall a, In a (angles_of_shell n) ->
                  F32.leb (S754_zero false) a = true /\
                  F32.ltb a two_pi = true) /\
       (0 < n -> hd S754_nan (angles_of_shell n) = S754_zero false).
Proof.
  split.
  - rewrite makeElectronsForElement_shape. apply spec_shells_angles.
  - intros n Hn.
    assert (Hb : 0 <= n <= 18).
    { apply (occupancy_bound shellCap) with (r := Z.min z 24); auto.
      intros c Hc. simpl in Hc. lia. }
    pose proof (checked_below _ 19 shell_angles_all n ltac:(lia)) as Hok.
    unfold shell_angles_ok in Hok.
    apply andb_true_iff in Hok. destruct Hok as [Hok Hfirst].
    apply andb_true_iff in Hok. destruct Hok as [Hrise Hall].
    split; [exact Hrise|]. split.
    + intros a Ha. rewrite forallb_forall in Hall.
      specialize (Hall a Ha). now apply andb_true_iff in Hall.
    + intros Hpos. destruct (angles_of_shell n) as [|a l] eqn:E.
      * unfold angles_of_shell in E.
        apply (f_equal (@length _)) in E.
        rewrite length_map, length_seq in E. simpl in E. lia.
      * simpl. now apply same_float_eq.
Qed.

(** ** Drawing the links *)

Section Drawing.

Lemma link_endpoints_split L l :
  forall A B,
    fold_left
      (fun AB a =>
         (if id a =? aId L then Some a else fst AB,
          if id a =? bId L then Some a else snd AB))
      l (A, B)
    = (fold_left (fun A a => if id a =? aId L then Some a else A) l A,
       fold_left (fun B a => if id a =? bId L then Some a else B) l B).
Proof.
  induction l as [|c l IH]; intros A B; simpl; auto.
Qed.

Lemma last_with_id k l :
  forall A0,
    In k (map id l) ->
    exists a, In a l /\ id a = k /\
              fold_left (fun A a => if id a =? k then Some a else A) l A0
              = Some a.
Proof.
  induction l as [|c l IH]; intros A0 Hin; simpl in *; [contradiction|].
  destruct (in_dec Z.eq_dec k (map id l)) as [Hl|Hl].
  - destruct (IH (if id c =? k then Some c else A0) Hl) as [a [Ha [Hid E]]].
    exists a. auto.
  - destruct Hin as [Hc|Hin]; [|contradiction].
    exists c. rewrite Hc, Z.eqb_refl. split; [now left|]. split; auto.
    clear -Hl. revert Hl. generalize (Some c).
    induction l as [|b l IH]; intros A Hl; simpl; auto.
    replace (id b =? k) with false.
    + apply IH. intros H. apply Hl. now right.
    + symmetry. apply Z.eqb_neq. intros H. apply Hl. now left.
Qed.

End Drawing.

(** X21.  Every link of the store gets drawn: the lookup of the draw loop
    finds an atom for each of the two identifiers, and the line goes from
    the position of the atom with identifier [aId] to that of the atom
    with identifier [bId], two different atoms. *)
Theorem every_link_is_drawn (g0 : Rand) (st : State) (L : Link) :
  reachable g0 st ->
  In L (links st) ->
  exists a b,
    In a (atoms st) /\ In b (atoms st) /\
    id a = aId L /\ id b = bId L /\ a <> b /\
    drawn_link L (atoms st) = Some (pos a, pos b).
Proof.
  intros Hreach HL.
  destruct (reachable_invariants _ _ Hreach) as [_ [_ Hdang]].
  pose proof (reachable_links_strict _ _ Hreach L HL) as Hlt.
  destruct (Hdang L HL) as [Ha Hb]. rewrite live_iff in Ha, Hb.
  destruct (last_with_id _ _ None Ha) as [a [Hina [Hida Ea]]].
  destruct (last_with_id _ _ None Hb) as [b [Hinb [Hidb Eb]]].
  exists a, b. repeat split; auto.
  - intros ->. lia.
  - unfold drawn_link, link_endpoints.
    rewrite link_endpoints_split, Ea, Eb. reflexivity.
Qed.

Lemma every_link_is_drawn_witness :
  let st := run linked_one_selected (init test_rand) in
  exists a b,
    In a (atoms st) /\ In b (atoms st) /\
    id a = 1 /\ id b = 2 /\ a <> b /\
    drawn_link (mkLink 1 2) (atoms st) = Some (pos a, pos b).
Proof.
  cbv zeta.
  assert (Hr : reachable test_rand
                 (run linked_one_selected (init test_rand))).
  { apply reachable_from_init. vm_compute. repeat split. }
  assert (HL : In (mkLink 1 2)
                  (links (run linked_one_selected (init test_rand))))
    by (vm_compute; left; reflexivity).
  exact (every_link_is_drawn _ _ _ Hr HL).
Defined.

(** ** Adding, picking and removing *)

Section RoundTrip.

Lemma filter_none {A} (p : A -> bool) l :
  (forall a, In a l -> p a = false) -> filter p l = [].
Proof.
  intros H. induction l as [|a l IH]; simpl; auto.
  rewrite (H a) by (now left). apply IH. intros b Hb. apply H. now right.
Qed.

Lemma links_below_nextId g0 st L :
  reachable g0 st -> In L (links st) ->
  aId L < nextId st /\ bId L < nextId st.
Proof.
  intros Hreach HL.
  destruct (reachable_invariants _ _ Hreach) as [[_ [Hrange _]] [_ Hdang]].
  destruct (Hdang L HL) as [Ha Hb]. rewrite live_iff in Ha, Hb.
  apply Hrange in Ha, Hb. lia.
Qed.

Lemma canvas_click_hit_drag m ctrl st :
  hit_test m (atoms st) <> -1 ->
  In (hit_test m (atoms st)) (map id (atoms st)) ->
  dragging (canvas_click m ctrl st) = true /\
  draggingId (canvas_click m ctrl st) = hit_test m (atoms st).
Proof.
  intros Hne Hin. unfold canvas_click. cbv zeta.
  replace (hit_test m (atoms st) =? -1) with false
    by (symmetry; now apply Z.eqb_neq).
  cbn [negb].
  destruct ctrl.
  - destruct (find_id_some (hit_test m (atoms st))
                (map (fun a => if id a =? hit_test m (atoms st)
                               then set_selected (negb (selected a)) a
                               else a) (atoms st))) as [a E].
    { rewrite map_field_map; auto. intros c. now destruct (id c =? _). }
    rewrite E. auto.
  - destruct (find_id_some (hit_test m (atoms st))
                (map (fun a => set_selected (id a =? hit_test m (atoms st)) a)
                     (atoms st))) as [a E].
    { rewrite map_field_map; auto. }
    rewrite E. auto.
Qed.

End RoundTrip.

(** X22.  Adding an atom, picking it with a plain press on the canvas and
    removing the selection gives back the atoms that were there, all
    unselected now, and the same links and element cursor.  Two things do
    not come back: [nextId] stays one higher (the identifier of the removed
    atom is spent), and the press has started a drag that the removal does
    not end -- [dragging] is true and [draggingId] is the identifier of the
    removed atom, so that pointer moves do nothing until the button is
    released.  All of it while the counter has not reached [INT_MAX]. *)
Theorem add_pick_remove_round_trip (g0 seeded seeded' : Rand) (st : State)
    (x y : Z) (now : float) :
  reachable g0 st ->
  nextId st < INT_MAX ->
  F32.ltb (F32.of_Z x) SIDEBAR_W = false ->
  hit_test (mkVec (F32.of_Z x) (F32.of_Z y)) (atoms (addAtom seeded st))
  = nextId st ->
  let st' := removeSelected
               (mousePressedLeft x y None false now seeded'
                                 (addAtom seeded st)) in
  atoms st' = map (set_selected false) (atoms st)
  /\ links st' = links st
  /\ selectedElement st' = selectedElement st
  /\ nextId st' = nextId st + 1
  /\ dragging st' = true
  /\ draggingId st' = nextId st
  /\ ~ In (draggingId st') (map id (atoms st'))
  /\ forall x' y' winSize, mouseMoved x' y' winSize st' = st'.
Proof.
  intros Hreach Hmax Hcanvas Hhit st'.
  destruct (reachable_invariants _ _ Hreach) as [[Hone [Hrange _]] _].
  assert (Hne : hit_test (mkVec (F32.of_Z x) (F32.of_Z y))
                         (atoms (addAtom seeded st)) <> -1)
    by (rewrite Hhit; lia).
  assert (Hold : forall a, In a (atoms st) -> (id a =? nextId st) = false).
  { intros a Ha. apply Z.eqb_neq.
    assert (1 <= id a < nextId st) by (apply Hrange; now apply in_map). lia. }
  assert (Hin : In (hit_test (mkVec (F32.of_Z x) (F32.of_Z y))
                             (atoms (addAtom seeded st)))
                   (map id (atoms (addAtom seeded st)))).
  { rewrite Hhit, atoms_addAtom, map_app. apply in_or_app. right.
    now left. }
  destruct (canvas_click_hit_drag _ false _ Hne Hin) as [Hd Hdi].
  rewrite Hhit in Hdi.
  assert (Hatoms : atoms st' = map (set_selected false) (atoms st)).
  { subst st'. unfold mousePressedLeft. cbn [vx]. rewrite Hcanvas.
    unfold removeSelected. cbn [set_links set_atoms atoms].
    rewrite atoms_canvas_click_hit by assumption. rewrite Hhit.
    rewrite atoms_addAtom.
    rewrite selectedIds_exclusive, filter_app, (filter_none _ _ Hold).
    cbn [filter map id app]. rewrite Z.eqb_refl. cbn [map id].
    rewrite map_app, filter_app.
    cbn [map filter id set_selected mem existsb].
    rewrite Z.eqb_refl. cbn [orb negb]. rewrite app_nil_r.
    rewrite filter_all.
    - apply map_ext_in. intros a Ha. now rewrite (Hold a Ha).
    - intros a Ha. apply in_map_iff in Ha. destruct Ha as [b [<- Hb]].
      cbn. now rewrite (Hold b Hb). }
  assert (Hlinks : links st' = links st).
  { subst st'. unfold mousePressedLeft. cbn [vx]. rewrite Hcanvas.
    unfold removeSelected. cbn [set_links set_atoms links].
    rewrite links_canvas_click, links_addAtom.
    rewrite atoms_canvas_click_hit by assumption. rewrite Hhit.
    rewrite atoms_addAtom.
    rewrite selectedIds_exclusive, filter_app, (filter_none _ _ Hold).
    cbn [filter map id app]. rewrite Z.eqb_refl. cbn [map id].
    apply filter_all. intros L HL.
    destruct (links_below_nextId _ _ _ Hreach HL) as [Ha Hb].
    cbn. replace (aId L =? nextId st) with false
      by (symmetry; apply Z.eqb_neq; lia).
    replace (bId L =? nextId st) with false
      by (symmetry; apply Z.eqb_neq; lia).
    reflexivity. }
  assert (Hdrag : dragging st' = true /\ draggingId st' = nextId st).
  { subst st'. unfold mousePressedLeft. cbn [vx]. rewrite Hcanvas.
    unfold removeSelected. cbn [set_links set_atoms dragging draggingId].
    auto. }
  destruct Hdrag as [Hdrag Hdid].
  assert (Habsent : ~ In (draggingId st') (map id (atoms st'))).
  { rewrite Hdid, Hatoms, map_field_map by reflexivity.
    intros Hi. apply Hrange in Hi. lia. }
  split; [exact Hatoms|]. split; [exact Hlinks|]. split; [|split].
  - subst st'. unfold mousePressedLeft. cbn [vx]. rewrite Hcanvas.
    unfold removeSelected. cbn [set_links set_atoms selectedElement].
    now rewrite selectedElement_canvas_click, selectedElement_addAtom.
  - subst st'. unfold mousePressedLeft. cbn [vx]. rewrite Hcanvas.
    unfold removeSelected. cbn [set_links set_atoms nextId].
    now rewrite nextId_canvas_click, nextId_addAtom.
  - split; [exact Hdrag|]. split; [exact Hdid|]. split; [exact Habsent|].
    intros x' y' winSize. unfold mouseMoved. rewrite Hdrag.
    destruct (draggingId st' =? -1); [reflexivity|]. cbn [andb negb].
    rewrite drag_first_absent by assumption. apply set_atoms_same.
Qed.

(** The new atom lands on top of atom 2; the press picks the new one. *)
Lemma add_pick_remove_round_trip_witness :
  let st := run linked_one_selected (init test_rand) in
  let st' := removeSelected
               (mousePressedLeft 812 436 None false (F32.of_Z 9) test_rand
                                 (addAtom test_rand st)) in
  map id (atoms st') = [1; 2] /\ links st' = [mkLink 1 2] /\ nextId st' = 4 /\
  dragging st' = true /\ draggingId st' = 3.
Proof.
  cbv zeta.
  assert (Hr : reachable test_rand
                 (run linked_one_selected (init test_rand))).
  { apply reachable_from_init. vm_compute. repeat split. }
  assert (Hmax : nextId (run linked_one_selected (init test_rand)) < INT_MAX)
    by (vm_compute; reflexivity).
  assert (Hcanvas : F32.ltb (F32.of_Z 812) SIDEBAR_W = false)
    by (vm_compute; reflexivity).
  assert (Hhit : hit_test (mkVec (F32.of_Z 812) (F32.of_Z 436))
                          (atoms (addAtom test_rand
                                    (run linked_one_selected
                                         (init test_rand))))
                 = nextId (run linked_one_selected (init test_rand)))
    by (vm_compute; reflexivity).
  destruct (add_pick_remove_round_trip test_rand test_rand test_rand _
              812 436 (F32.of_Z 9) Hr Hmax Hcanvas Hhit)
    as [Ha [Hl [_ [Hn [Hd [Hdi _]]]]]].
  split; [rewrite Ha; vm_compute; reflexivity|].
  split; [rewrite Hl; vm_compute; reflexivity|].
  split; [rewrite Hn; vm_compute; reflexivity|].
  split; [exact Hd|]. rewrite Hdi. vm_compute. reflexivity.
Defined.

(** ** Atoms stay as they were built *)

Section Built.

Lemma build_update_atom t a : build_fields (update_atom t a) = build_fields a.
Proof.
  unfold update_atom, integrate, activate_due, build_fields.
  destruct (fires t a); cbn.
  - now rewrite length_map.
  - destruct (active a); cbn; auto. now rewrite length_map.
Qed.

Lemma well_built_fields a b :
  build_fields a = build_fields b -> well_built a -> well_built b.
Proof.
  unfold build_fields, well_built, size. intros [= E1 E2 E3].
  now rewrite <- E1, <- E2, <- E3.
Qed.

End Built.

(** X23.  Every atom of the store is as [addAtom] built it: its element
    index is a valid index of the catalogue (so the [ELEMENTS[a.elementIndex]]
    of the draw phase is in bounds), its nucleus radius is 16, and it has
    exactly as many electrons as the atomic number of its element -- the
    cap of 24 is never reached with this catalogue. *)
Theorem atoms_stay_as_built (g0 : Rand) (st : State) (a : Atom) :
  reachable g0 st -> In a (atoms st) -> well_built a.
Proof.
  intros Hreach. revert a.
  induction Hreach as [|st i Hreach IH Hdef]; intros b Hb; [destruct Hb|].
  destruct (step_field build_fields i st)
    as [E|[[seeded [_ E]]|[E|E]]];
    try reflexivity; try (intros; apply build_update_atom).
  - destruct (In_same_field _ _ _ E b Hb) as [a [Ha Hf]].
    apply (well_built_fields a); auto.
  - rewrite E, atoms_addAtom in Hb. apply in_app_or in Hb.
    destruct Hb as [Hb|[<-|[]]]; auto.
    pose proof (reachable_element_index _ _ Hreach) as Hel.
    unfold well_built. cbn [elementIndex nucleusRadius electrons].
    change (size ELEMENTS_atomicNumber) with 10.
    split; [exact Hel|]. split; [reflexivity|].
    now apply catalogue_electron_count.
  - rewrite E in Hb. unfold removeSelected in Hb. cbn in Hb.
    apply filter_In in Hb. apply IH. tauto.
  - rewrite E in Hb. destruct Hb.
Qed.

(** Sodium, the ninth entry: eleven electrons. *)
Lemma atoms_stay_as_built_witness :
  let st := run (repeat (click_button BtnPrevElement 36 (F32.of_Z 1)) 2
                 ++ [click_button BtnAddAtom 84 (F32.of_Z 2);
                     Frame (F32.of_Z 3)])
                (init test_rand) in
  map elementIndex (atoms st) = [8] /\
  well_built (hd dummy_atom (atoms st)) /\
  map (fun a => length (electrons a)) (atoms st) = [11%nat].
Proof.
  cbv zeta.
  assert (Hr : reachable test_rand
                 (run (repeat (click_button BtnPrevElement 36 (F32.of_Z 1)) 2
                       ++ [click_button BtnAddAtom 84 (F32.of_Z 2);
                           Frame (F32.of_Z 3)])
                      (init test_rand))).
  { apply reachable_from_init. vm_compute. repeat split. }
  split; [vm_compute; reflexivity|]. split; [|vm_compute; reflexivity].
  apply (atoms_stay_as_built _ _ _ Hr). vm_compute. left. reflexivity.
Defined.
